(** * Node.js binding of the inference session: lifecycle and run pipeline

    A shallow embedding of [js/node/src/inference_session_wrap.cc]: the
    [InferenceSessionWrap] object with its two flags and its native
    handles, and the methods [LoadModel], [GetMetadata], [Run], [Dispose]
    and [EndProfiling].  The inference engine and the helper files of the
    binding (option parsers, tensor marshalling) are collaborators of the
    methods: they are taken as an interface, the methods are written
    against it in a small state-and-exception monad, and every call that
    crosses into the engine is recorded in a history. *)

From Stdlib Require Import ZArith String Ascii List Lia.
From stdpp Require Import base option list strings.

Set Warnings "-register-all".

Open Scope string_scope.
Open Scope list_scope.

(** ** Host values (Napi::Value) *)

(** One constructor per [napi_valuetype]; an [ArrayBuffer] is an object
    with a byte store.  [props] lists the properties that [Has] and [Get]
    can see, in property order. A JavaScript number is kept as the integer
    that [Int64Value] reads from it. *)
Inductive NapiValue : Type :=
  | NUndefined
  | NNull
  | NBoolean (b : bool)
  | NNumber (n : Z)
  | NString (s : string)
  | NSymbol
  | NBigInt (n : Z)
  | NExternal
  | NFunction (props : list (string * NapiValue))
  | NObject (props : list (string * NapiValue))
  | NArrayBuffer (data : list Byte.byte) (props : list (string * NapiValue)).

Definition IsString (v : NapiValue) : bool :=
  match v with NString _ => true | _ => false end.

Definition IsNumber (v : NapiValue) : bool :=
  match v with NNumber _ => true | _ => false end.

Definition IsNull (v : NapiValue) : bool :=
  match v with NNull => true | _ => false end.

Definition IsArrayBuffer (v : NapiValue) : bool :=
  match v with NArrayBuffer _ _ => true | _ => false end.

(** [Napi::Value::IsObject] is true of objects and of functions. *)
Definition IsObject (v : NapiValue) : bool :=
  match v with
  | NObject _ | NArrayBuffer _ _ | NFunction _ => true
  | _ => false
  end.

Definition Utf8Value (v : NapiValue) : string :=
  match v with NString s => s | _ => "" end.

Definition Int64Value (v : NapiValue) : Z :=
  match v with NNumber n => n | _ => 0%Z end.

Definition Data (v : NapiValue) : list Byte.byte :=
  match v with NArrayBuffer d _ => d | _ => [] end.

Definition properties (v : NapiValue) : list (string * NapiValue) :=
  match v with
  | NObject ps | NArrayBuffer _ ps | NFunction ps => ps
  | _ => []
  end.

Fixpoint find_property (ps : list (string * NapiValue)) (name : string)
  : option NapiValue :=
  match ps with
  | [] => None
  | (k, v) :: ps' => if String.eqb k name then Some v else find_property ps' name
  end.

(** [obj.Has(name)] and [obj.Get(name)]. *)
Definition Has (obj : NapiValue) (name : string) : bool :=
  match find_property (properties obj) name with Some _ => true | None => false end.

Definition Get (obj : NapiValue) (name : string) : NapiValue :=
  match find_property (properties obj) name with Some v => v | None => NUndefined end.

(** [obj.Set(name, value)] on a property list: an existing property keeps
    its place, a new one goes last. *)
Fixpoint set_property (ps : list (string * NapiValue)) (name : string)
    (value : NapiValue) : list (string * NapiValue) :=
  match ps with
  | [] => [(name, value)]
  | (k, v) :: ps' =>
      if String.eqb k name then (k, value) :: ps'
      else (k, v) :: set_property ps' name value
  end.

(** Two host records with the same entries under the given names. *)
Definition same_entries (names : list string) (a b : NapiValue) : Prop :=
  IsObject a = IsObject b
  /\ forall name, In name names ->
       find_property (properties a) name = find_property (properties b) name.

(** A host record without the entries under other names. *)
Definition keep_declared (names : list string) (ps : list (string * NapiValue)) :=
  List.filter (fun kv => existsb (String.eqb (fst kv)) names) ps.

Definition only_declared (names : list string) (v : NapiValue) : NapiValue :=
  match v with
  | NObject ps => NObject (keep_declared names ps)
  | NArrayBuffer d ps => NArrayBuffer d (keep_declared names ps)
  | NFunction ps => NFunction (keep_declared names ps)
  | _ => v
  end.

(** Decimal spelling of an array index, for the index keys of an array. *)
Definition digit (n : nat) : ascii := ascii_of_nat (48 + n).

Fixpoint index_key_aux (fuel n : nat) (acc : string) : string :=
  match fuel with
  | O => acc
  | S fuel' =>
      let acc' := String (digit (n mod 10)) acc in
      if Nat.ltb n 10 then acc' else index_key_aux fuel' (n / 10) acc'
  end.

Definition index_key (n : nat) : string := index_key_aux (S n) n "".

(** [Napi::Array]: an object whose keys are the indices, then [length]. *)
Definition napi_array (items : list NapiValue) : NapiValue :=
  NObject (imap (fun i v => (index_key i, v)) items
             ++ [("length", NNumber (Z.of_nat (length items)))]).

(** Modelled from the spec: [CreateNapiArrayFrom] of [common.h] is not in
    the sources at hand; a host array is made of the elements in order,
    numbers for a shape and strings for symbolic dimensions. *)
Definition CreateNapiArrayFrom_int64 (xs : list Z) : NapiValue :=
  napi_array (map NNumber xs).

Definition CreateNapiArrayFrom_string (xs : list string) : NapiValue :=
  napi_array (map NString xs).

(** ** Exceptions *)

Inductive ErrorKind := GenericError | TypeError.

(** What a C++ [throw] carries: a host error ([Napi::Error], of which
    [Napi::TypeError] is a subclass) or any other [std::exception] with its
    [what()] text, such as the engine's [Ort::Exception]. *)
Inductive Thrown :=
  | NapiError (kind : ErrorKind) (message : string)
  | StdException (what : string).

(** Modelled from the spec: the macros [ORT_NAPI_THROW_ERROR] and
    [ORT_NAPI_THROW_TYPEERROR] of [common.h] are not in the sources at
    hand; the first raises a generic host error with the message, the
    second a host type error. *)
Definition ORT_NAPI_ERROR (msg : string) : Thrown := NapiError GenericError msg.
Definition ORT_NAPI_TYPEERROR (msg : string) : Thrown := NapiError TypeError msg.

(** The two [catch] clauses that close the [try] blocks of [LoadModel] and
    [Run]: a host error is thrown again as it is, any other exception
    becomes a generic host error with the text of [what()]. *)
Definition rethrow (t : Thrown) : Thrown :=
  match t with
  | NapiError k m => NapiError k m
  | StdException w => ORT_NAPI_ERROR w
  end.

Definition msg_already_loaded : string :=
  "Model already loaded. Cannot load model multiple times.".
Definition msg_disposed : string := "Session already disposed.".
Definition msg_not_initialized : string := "Session is not initialized.".
Definition msg_expect_model : string :=
  "Expect argument: model file path or buffer.".
Definition msg_invalid_args : string :=
  "Invalid argument: args has to be either (modelPath, options) or (buffer, byteOffset, byteLength, options).".
Definition msg_expect_feed_fetch : string :=
  "Expect argument: inputs(feed) and outputs(fetch).".
Definition msg_feed_fetch_objects : string :=
  "Expect inputs(feed) and outputs(fetch) to be objects.".
Definition msg_run_options : string := "'runOptions' must be an object.".
Definition msg_preferred_size : string :=
  "Preferred output locations must have the same size as output names.".
Definition msg_output_count : string := "Output count mismatch.".

(** ** Engine data *)

(** [ONNXType] of the engine's C API. *)
Inductive ONNXType :=
  | ONNX_TYPE_UNKNOWN | ONNX_TYPE_TENSOR | ONNX_TYPE_SEQUENCE | ONNX_TYPE_MAP
  | ONNX_TYPE_OPAQUE | ONNX_TYPE_SPARSETENSOR | ONNX_TYPE_OPTIONAL.

Definition is_tensor (t : ONNXType) : bool :=
  match t with ONNX_TYPE_TENSOR => true | _ => false end.

(** [Ort::TypeInfo] with what [GetMetadata] reads from it: the type tag
    and, for a tensor, the element type code, the symbolic dimension names
    and the shape. *)
Record TypeInfo := {
  GetONNXType : ONNXType;
  GetElementType : Z;
  GetSymbolicDimensions : list string;
  GetShape : list Z
}.

(** The two memory descriptors [Run] builds before it reads its arguments. *)
Inductive MemoryInfo := cpuMemoryInfo | gpuBufferMemoryInfo.

(** Modelled from the spec: the enumeration [DataLocation] is declared in a
    header that is not in the sources at hand; an element of
    [preferredOutputLocations_] is one of CPU and GPU_BUFFER. *)
Inductive DataLocation := DATA_LOCATION_CPU | DATA_LOCATION_GPU_BUFFER.

Definition is_gpu_buffer (l : DataLocation) : bool :=
  match l with DATA_LOCATION_GPU_BUFFER => true | DATA_LOCATION_CPU => false end.

(** ** The collaborators of the session object *)

Section Binding.

(** The engine's own types are opaque to the binding: tensor values
    ([Ort::Value]), option bundles and the two native handles. *)
Context {OrtValue SessionOptions RunOptions OrtSession OrtIoBinding : Type}.

(** A call into the engine, with the arguments the binding passes. *)
Inductive Call :=
  | NewSessionFromPath (path : string) (options : SessionOptions)
  | NewSessionFromBuffer (buffer : list Byte.byte) (bytesOffset bytesLength : Z)
      (options : SessionOptions)
  | GetInputCount (s : OrtSession)
  | GetInputNameAllocated (s : OrtSession) (i : nat)
  | GetInputTypeInfo (s : OrtSession) (i : nat)
  | GetOutputCount (s : OrtSession)
  | GetOutputNameAllocated (s : OrtSession) (i : nat)
  | GetOutputTypeInfo (s : OrtSession) (i : nat)
  | NewIoBinding (s : OrtSession)
  | SessionRun (s : OrtSession) (options : RunOptions)
      (inputs : list (string * OrtValue)) (outputs : list (string * OrtValue))
  | BindInput (b : OrtIoBinding) (name : string) (value : OrtValue)
  | BindOutput (b : OrtIoBinding) (name : string) (mem : MemoryInfo)
  | SessionRunWithBinding (s : OrtSession) (options : RunOptions) (b : OrtIoBinding)
  | GetOutputValues (b : OrtIoBinding)
  | EndProfilingAllocated (s : OrtSession)
  | ReleaseIoBinding (b : OrtIoBinding)
  | ReleaseSession (s : OrtSession).

(** The engine answers a call from the calls it has seen so far, either
    with a value or by throwing.  There is one answer function per type of
    reply.  The last one is for the construction of a memory descriptor,
    which is no call on a session or on a binding: the engine makes the
    descriptor or throws. *)
Record Engine := {
  answer_session : list Call -> Call -> Thrown + OrtSession;
  answer_count : list Call -> Call -> Thrown + nat;
  answer_name : list Call -> Call -> Thrown + string;
  answer_type : list Call -> Call -> Thrown + TypeInfo;
  answer_binding : list Call -> Call -> Thrown + OrtIoBinding;
  answer_values : list Call -> Call -> Thrown + list OrtValue;
  answer_status : list Call -> Call -> Thrown + unit;
  answer_memory_info : list Call -> MemoryInfo -> Thrown + unit
}.

(** The helper files of the binding and its instance data.  The parsers
    write into an object they are handed; [ParsePreferredOutputLocations]
    writes into a member of the session, so what it has written stays when
    it throws. *)
Record Helpers := {
  new_SessionOptions : SessionOptions;
  new_RunOptions : RunOptions;
  OrtDefaultRunOptions : RunOptions;
  null_OrtValue : OrtValue;
  ParseSessionOptions : NapiValue -> SessionOptions -> Thrown + SessionOptions;
  ParseRunOptions : NapiValue -> RunOptions -> Thrown + RunOptions;
  ParsePreferredOutputLocations :
    NapiValue -> list string -> list DataLocation ->
    list DataLocation * option Thrown;
  NapiValueToOrtValue :
    NapiValue -> MemoryInfo -> MemoryInfo -> Thrown + OrtValue;
  OrtValueToNapiValue : OrtValue -> Thrown + NapiValue
}.

(** ** The session object *)

Record InferenceSessionWrap := {
  initialized_ : bool;
  disposed_ : bool;
  session_ : option OrtSession;
  inputNames_ : list string;
  inputTypes_ : list TypeInfo;
  outputNames_ : list string;
  outputTypes_ : list TypeInfo;
  preferredOutputLocations_ : list DataLocation;
  ioBinding_ : option OrtIoBinding
}.

(** The constructor. *)
Definition new_InferenceSessionWrap : InferenceSessionWrap :=
  {| initialized_ := false; disposed_ := false; session_ := None;
     inputNames_ := []; inputTypes_ := []; outputNames_ := [];
     outputTypes_ := []; preferredOutputLocations_ := []; ioBinding_ := None |}.

Definition set_initialized_ (b : bool) (w : InferenceSessionWrap) :=
  {| initialized_ := b; disposed_ := disposed_ w; session_ := session_ w;
     inputNames_ := inputNames_ w; inputTypes_ := inputTypes_ w;
     outputNames_ := outputNames_ w; outputTypes_ := outputTypes_ w;
     preferredOutputLocations_ := preferredOutputLocations_ w;
     ioBinding_ := ioBinding_ w |}.

Definition set_disposed_ (b : bool) (w : InferenceSessionWrap) :=
  {| initialized_ := initialized_ w; disposed_ := b; session_ := session_ w;
     inputNames_ := inputNames_ w; inputTypes_ := inputTypes_ w;
     outputNames_ := outputNames_ w; outputTypes_ := outputTypes_ w;
     preferredOutputLocations_ := preferredOutputLocations_ w;
     ioBinding_ := ioBinding_ w |}.

Definition set_session_ (s : option OrtSession) (w : InferenceSessionWrap) :=
  {| initialized_ := initialized_ w; disposed_ := disposed_ w; session_ := s;
     inputNames_ := inputNames_ w; inputTypes_ := inputTypes_ w;
     outputNames_ := outputNames_ w; outputTypes_ := outputTypes_ w;
     preferredOutputLocations_ := preferredOutputLocations_ w;
     ioBinding_ := ioBinding_ w |}.

Definition push_inputName (n : string) (w : InferenceSessionWrap) :=
  {| initialized_ := initialized_ w; disposed_ := disposed_ w;
     session_ := session_ w;
     inputNames_ := inputNames_ w ++ [n]; inputTypes_ := inputTypes_ w;
     outputNames_ := outputNames_ w; outputTypes_ := outputTypes_ w;
     preferredOutputLocations_ := preferredOutputLocations_ w;
     ioBinding_ := ioBinding_ w |}.

Definition push_inputType (t : TypeInfo) (w : InferenceSessionWrap) :=
  {| initialized_ := initialized_ w; disposed_ := disposed_ w;
     session_ := session_ w;
     inputNames_ := inputNames_ w; inputTypes_ := inputTypes_ w ++ [t];
     outputNames_ := outputNames_ w; outputTypes_ := outputTypes_ w;
     preferredOutputLocations_ := preferredOutputLocations_ w;
     ioBinding_ := ioBinding_ w |}.

Definition push_outputName (n : string) (w : InferenceSessionWrap) :=
  {| initialized_ := initialized_ w; disposed_ := disposed_ w;
     session_ := session_ w;
     inputNames_ := inputNames_ w; inputTypes_ := inputTypes_ w;
     outputNames_ := outputNames_ w ++ [n]; outputTypes_ := outputTypes_ w;
     preferredOutputLocations_ := preferredOutputLocations_ w;
     ioBinding_ := ioBinding_ w |}.

Definition push_outputType (t : TypeInfo) (w : InferenceSessionWrap) :=
  {| initialized_ := initialized_ w; disposed_ := disposed_ w;
     session_ := session_ w;
     inputNames_ := inputNames_ w; inputTypes_ := inputTypes_ w;
     outputNames_ := outputNames_ w; outputTypes_ := outputTypes_ w ++ [t];
     preferredOutputLocations_ := preferredOutputLocations_ w;
     ioBinding_ := ioBinding_ w |}.

Definition set_preferredOutputLocations_ (l : list DataLocation)
    (w : InferenceSessionWrap) :=
  {| initialized_ := initialized_ w; disposed_ := disposed_ w;
     session_ := session_ w;
     inputNames_ := inputNames_ w; inputTypes_ := inputTypes_ w;
     outputNames_ := outputNames_ w; outputTypes_ := outputTypes_ w;
     preferredOutputLocations_ := l; ioBinding_ := ioBinding_ w |}.

Definition set_ioBinding_ (b : option OrtIoBinding) (w : InferenceSessionWrap) :=
  {| initialized_ := initialized_ w; disposed_ := disposed_ w;
     session_ := session_ w;
     inputNames_ := inputNames_ w; inputTypes_ := inputTypes_ w;
     outputNames_ := outputNames_ w; outputTypes_ := outputTypes_ w;
     preferredOutputLocations_ := preferredOutputLocations_ w;
     ioBinding_ := b |}.

(** ** A monad for the methods *)

(** A method runs on the session object and on the history of engine
    calls.  It returns, throws, or runs into undefined behaviour of C++ (a
    null handle dereferenced, a vector read past its end). *)
Record State := { self : InferenceSessionWrap; history : list Call }.

Inductive Completion (A : Type) :=
  | Return (a : A)
  | Raise (t : Thrown)
  | Undefined.
Arguments Return {A} a.
Arguments Raise {A} t.
Arguments Undefined {A}.

Definition M (A : Type) : Type := State -> Completion A * State.

Definition ret {A} (a : A) : M A := fun st => (Return a, st).

Definition bind {A B} (m : M A) (k : A -> M B) : M B :=
  fun st =>
    match m st with
    | (Return a, st') => k a st'
    | (Raise t, st') => (Raise t, st')
    | (Undefined, st') => (Undefined, st')
    end.

Definition throw {A} (t : Thrown) : M A := fun st => (Raise t, st).

Definition undefined {A} : M A := fun st => (Undefined, st).

Definition this : M InferenceSessionWrap := fun st => (Return (self st), st).

Definition update (f : InferenceSessionWrap -> InferenceSessionWrap) : M unit :=
  fun st => (Return tt, {| self := f (self st); history := history st |}).

Definition lift {A} (r : Thrown + A) : M A :=
  match r with inl t => throw t | inr a => ret a end.

(** [try { m } catch (Napi::Error const& e) { throw e; }
     catch (std::exception const& e) { ORT_NAPI_THROW_ERROR(env, e.what()); }] *)
Definition try_catch {A} (m : M A) : M A :=
  fun st =>
    match m st with
    | (Raise t, st') => (Raise (rethrow t), st')
    | r => r
    end.

(** A call into the engine: it is recorded, and the engine's answer is its
    result. *)
Definition invoke {A} (answer : list Call -> Call -> Thrown + A) (c : Call) : M A :=
  fun st =>
    let st' := {| self := self st; history := history st ++ [c] |} in
    match answer (history st) c with
    | inl t => (Raise t, st')
    | inr a => (Return a, st')
    end.

(** A destructor: recorded, and it does not throw. *)
Definition release (c : Call) : M unit :=
  fun st => (Return tt, {| self := self st; history := history st ++ [c] |}).

(** The construction of a memory descriptor: the engine makes it or
    throws; the history of calls on sessions and bindings is as before. *)
Definition construct (answer : list Call -> MemoryInfo -> Thrown + unit)
    (mem : MemoryInfo) : M MemoryInfo :=
  fun st =>
    match answer (history st) mem with
    | inl t => (Raise t, st)
    | inr _ => (Return mem, st)
    end.

Definition deref {A} (p : option A) : M A :=
  match p with Some a => ret a | None => undefined end.

Definition index {A} (v : list A) (i : nat) : M A := deref (v !! i).

Notation "'let*' x ':=' m 'in' k" := (bind m (fun x => k))
  (at level 10, x name, m at level 100, k at level 200, only parsing).
Notation "m ';;' k" := (bind m (fun _ => k))
  (at level 100, k at level 200, right associativity, only parsing).

Variable E : Engine.
Variable H : Helpers.

(** [info[i]]: past the arguments given it is [undefined]. *)
Definition arg (info : list NapiValue) (i : nat) : NapiValue :=
  nth i info NUndefined.

(** ** LoadModel *)

(** [this->session_.reset(p)]: the session held before, if any, is
    released. *)
Definition reset_session_ (p : option OrtSession) : M unit :=
  let* w := this in
  match session_ w with
  | Some old => release (ReleaseSession old)
  | None => ret tt
  end;;
  update (set_session_ p).

Definition reset_ioBinding_ (p : option OrtIoBinding) : M unit :=
  let* w := this in
  match ioBinding_ w with
  | Some old => release (ReleaseIoBinding old)
  | None => ret tt
  end;;
  update (set_ioBinding_ p).

(** The dispatch on the number and kinds of the arguments, up to the
    native session stored in [session_]. *)
Definition create_session (info : list NapiValue) : M unit :=
  let argsLength := length info in
  let sessionOptions := new_SessionOptions H in
  if Nat.eqb argsLength 2 && IsString (arg info 0) && IsObject (arg info 1) then
    let value := Utf8Value (arg info 0) in
    let* sessionOptions := lift (ParseSessionOptions H (arg info 1) sessionOptions) in
    let* s := invoke (answer_session E) (NewSessionFromPath value sessionOptions) in
    reset_session_ (Some s)
  else if Nat.eqb argsLength 4 && IsArrayBuffer (arg info 0) && IsNumber (arg info 1)
          && IsNumber (arg info 2) && IsObject (arg info 3) then
    let buffer := Data (arg info 0) in
    let bytesOffset := Int64Value (arg info 1) in
    let bytesLength := Int64Value (arg info 2) in
    let* sessionOptions := lift (ParseSessionOptions H (arg info 3) sessionOptions) in
    let* s := invoke (answer_session E)
                (NewSessionFromBuffer buffer bytesOffset bytesLength sessionOptions) in
    reset_session_ (Some s)
  else
    throw (ORT_NAPI_TYPEERROR msg_invalid_args).

(** [for (size_t i = 0; i < count; i++)] over the inputs; [todo] counts the
    rounds that are left. *)
Fixpoint cache_inputs (todo i : nat) : M unit :=
  match todo with
  | O => ret tt
  | S todo' =>
      let* w := this in
      let* s := deref (session_ w) in
      let* input_name := invoke (answer_name E) (GetInputNameAllocated s i) in
      update (push_inputName input_name);;
      let* t := invoke (answer_type E) (GetInputTypeInfo s i) in
      update (push_inputType t);;
      cache_inputs todo' (S i)
  end.

Fixpoint cache_outputs (todo i : nat) : M unit :=
  match todo with
  | O => ret tt
  | S todo' =>
      let* w := this in
      let* s := deref (session_ w) in
      let* output_name := invoke (answer_name E) (GetOutputNameAllocated s i) in
      update (push_outputName output_name);;
      let* t := invoke (answer_type E) (GetOutputTypeInfo s i) in
      update (push_outputType t);;
      cache_outputs todo' (S i)
  end.

(** cache input/output names and types *)
Definition cache_names_and_types : M unit :=
  let* w := this in
  let* s := deref (session_ w) in
  let* count := invoke (answer_count E) (GetInputCount s) in
  cache_inputs count 0;;
  let* count := invoke (answer_count E) (GetOutputCount s) in
  cache_outputs count 0.

(** cache preferred output locations *)
Definition cache_preferred_output_locations (info : list NapiValue) : M unit :=
  let argsLength := length info in
  let* w := this in
  let '(locations, thrown) :=
    ParsePreferredOutputLocations H (arg info (argsLength - 1)) (outputNames_ w)
      (preferredOutputLocations_ w) in
  update (set_preferredOutputLocations_ locations);;
  match thrown with Some t => throw t | None => ret tt end;;
  if Nat.ltb 0 (length locations) then
    let* w := this in
    let* s := deref (session_ w) in
    let* b := invoke (answer_binding E) (NewIoBinding s) in
    reset_ioBinding_ (Some b)
  else ret tt.

(** The body of the [try] block of [LoadModel]. *)
Definition load_steps (info : list NapiValue) : M unit :=
  create_session info;;
  cache_names_and_types;;
  cache_preferred_output_locations info.

Definition LoadModel (info : list NapiValue) : M NapiValue :=
  let* w := this in
  if initialized_ w then throw (ORT_NAPI_ERROR msg_already_loaded) else
  if disposed_ w then throw (ORT_NAPI_ERROR msg_disposed) else
  let argsLength := length info in
  if Nat.eqb argsLength 0 then throw (ORT_NAPI_TYPEERROR msg_expect_model) else
  try_catch (load_steps info);;
  update (set_initialized_ true);;
  ret NUndefined.

(** ** GetMetadata *)

Definition metadata_entry (name : string) (typeInfo : TypeInfo) : NapiValue :=
  let obj := [] in
  let obj := set_property obj "name" (NString name) in
  if is_tensor (GetONNXType typeInfo) then
    let obj := set_property obj "isTensor" (NBoolean true) in
    let obj := set_property obj "type" (NNumber (GetElementType typeInfo)) in
    let obj := set_property obj "symbolicDimensions"
                 (CreateNapiArrayFrom_string (GetSymbolicDimensions typeInfo)) in
    let obj := set_property obj "shape"
                 (CreateNapiArrayFrom_int64 (GetShape typeInfo)) in
    NObject obj
  else
    let obj := set_property obj "isTensor" (NBoolean false) in
    NObject obj.

(** [for (uint32_t i = 0; i < types.size(); i++)], reading [names[i]];
    there is no result when [names] is the shorter vector. *)
Fixpoint metadata_entries (names : list string) (types : list TypeInfo)
    (i : nat) : option (list NapiValue) :=
  match types with
  | [] => Some []
  | typeInfo :: types' =>
      match names !! i, metadata_entries names types' (S i) with
      | Some name, Some rest => Some (metadata_entry name typeInfo :: rest)
      | _, _ => None
      end
  end.

(** [is_input] is [info.Data() != nullptr]: the accessor [inputMetadata]
    is registered with [true], [outputMetadata] with [false]. *)
Definition GetMetadata (is_input : bool) : M NapiValue :=
  let* w := this in
  if negb (initialized_ w) then throw (ORT_NAPI_ERROR msg_not_initialized) else
  if disposed_ w then throw (ORT_NAPI_ERROR msg_disposed) else
  let names := if is_input then inputNames_ w else outputNames_ w in
  let types := if is_input then inputTypes_ w else outputTypes_ w in
  let* entries := deref (metadata_entries names types 0) in
  ret (napi_array entries).

(** ** Run *)

(** [for (auto& name : inputNames_)]: the names found in [feed], each with
    its converted value; [inputNames_cstr] and [inputValues] are the two
    columns of the result. *)
Fixpoint marshal_feed (feed : NapiValue) (names : list string)
  : Thrown + list (string * OrtValue) :=
  match names with
  | [] => inr []
  | name :: names' =>
      if Has feed name then
        let value := Get feed name in
        match NapiValueToOrtValue H value cpuMemoryInfo gpuBufferMemoryInfo with
        | inl t => inl t
        | inr v =>
            match marshal_feed feed names' with
            | inl t => inl t
            | inr rest => inr ((name, v) :: rest)
            end
        end
      else marshal_feed feed names'
  end.

(** [for (auto& name : outputNames_)]: [outputNames_cstr] and
    [outputValues]; a null entry of [fetch] gives a null value.  The vector
    [reuseOutput] is filled next to them and never read. *)
Fixpoint marshal_fetch (fetch : NapiValue) (names : list string)
  : Thrown + list (string * OrtValue) :=
  match names with
  | [] => inr []
  | name :: names' =>
      if Has fetch name then
        let value := Get fetch name in
        match (if IsNull value then inr (null_OrtValue H)
               else NapiValueToOrtValue H value cpuMemoryInfo gpuBufferMemoryInfo) with
        | inl t => inl t
        | inr v =>
            match marshal_fetch fetch names' with
            | inl t => inl t
            | inr rest => inr ((name, v) :: rest)
            end
        end
      else marshal_fetch fetch names'
  end.

(** The engine writes its results into [outputValues], the caller's
    array: slot [i] takes the value written at [i]. *)
Definition written_back (outputValues written : list OrtValue) : list OrtValue :=
  imap (fun i old => match written !! i with Some v => v | None => old end)
    outputValues.

(** [for (size_t i = 0; i < outputIndex; i++)
       result.Set(outputNames_[i], OrtValueToNapiValue(env, std::move(values[i])));] *)
Fixpoint wrap_outputs (outputNames : list string) (values : list OrtValue)
    (todo i : nat) (result : list (string * NapiValue))
  : Completion (list (string * NapiValue)) :=
  match todo with
  | O => Return result
  | S todo' =>
      match outputNames !! i, values !! i with
      | Some name, Some v =>
          match OrtValueToNapiValue H v with
          | inl t => Raise t
          | inr value =>
              wrap_outputs outputNames values todo' (S i)
                (set_property result name value)
          end
      | _, _ => Undefined
      end
  end.

Definition complete {A} (c : Completion A) : M A := fun st => (c, st).

(** [for (size_t i = 0; i < inputIndex; i++)
       ioBinding_->BindInput(inputNames_cstr[i], inputValues[i]);] *)
Fixpoint bind_inputs (inputs : list (string * OrtValue)) : M unit :=
  match inputs with
  | [] => ret tt
  | (name, value) :: inputs' =>
      let* w := this in
      let* b := deref (ioBinding_ w) in
      invoke (answer_status E) (BindInput b name value);;
      bind_inputs inputs'
  end.

(** The loop over the requested outputs, from index [i] on. *)
Fixpoint bind_outputs (outputNames_cstr : list string) (i : nat) : M unit :=
  match outputNames_cstr with
  | [] => ret tt
  | name :: names' =>
      let* w := this in
      let* location := index (preferredOutputLocations_ w) i in
      let* b := deref (ioBinding_ w) in
      invoke (answer_status E)
        (BindOutput b name
           (if is_gpu_buffer location then gpuBufferMemoryInfo else cpuMemoryInfo));;
      bind_outputs names' (S i)
  end.

(** The direct path: [session_->Run] on the parallel arrays, then the
    result record.  [w] is [*this]. *)
Definition run_direct (w : InferenceSessionWrap) (options : RunOptions)
    (inputs outputs : list (string * OrtValue)) : M NapiValue :=
  let outputIndex := length outputs in
  let* s := deref (session_ w) in
  let* written := invoke (answer_values E) (SessionRun s options inputs outputs) in
  let outputValues := written_back (map snd outputs) written in
  let* result := complete (wrap_outputs (outputNames_ w) outputValues outputIndex 0 []) in
  ret (NObject result).

(** The path through the I/O binding. *)
Definition run_io_binding (w : InferenceSessionWrap) (options : RunOptions)
    (inputs outputs : list (string * OrtValue)) : M NapiValue :=
  let outputIndex := length outputs in
  if negb (Nat.eqb (length (preferredOutputLocations_ w)) (length (outputNames_ w)))
  then throw (ORT_NAPI_ERROR msg_preferred_size) else
  bind_inputs inputs;;
  bind_outputs (map fst outputs) 0;;
  let* s := deref (session_ w) in
  let* b := deref (ioBinding_ w) in
  invoke (answer_status E) (SessionRunWithBinding s options b);;
  let* outputs' := invoke (answer_values E) (GetOutputValues b) in
  if negb (Nat.eqb (length outputs') outputIndex) then
    throw (ORT_NAPI_ERROR msg_output_count) else
  let* result := complete (wrap_outputs (outputNames_ w) outputs' outputIndex 0 []) in
  ret (NObject result).

(** The body of the [try] block of [Run]. *)
Definition run_steps (info : list NapiValue) (w : InferenceSessionWrap)
  : M NapiValue :=
  let feed := arg info 0 in
  let fetch := arg info 1 in
  let* inputs := lift (marshal_feed feed (inputNames_ w)) in
  let* outputs := lift (marshal_fetch fetch (outputNames_ w)) in
  let* runOptions :=
    (if Nat.ltb 2 (length info) then
       let* parsed := lift (ParseRunOptions H (arg info 2) (new_RunOptions H)) in
       ret (Some parsed)
     else ret None) in
  let options :=
    match runOptions with None => OrtDefaultRunOptions H | Some r => r end in
  if Nat.eqb (length (preferredOutputLocations_ w)) 0 then
    run_direct w options inputs outputs
  else
    run_io_binding w options inputs outputs.

(** [Ort::MemoryInfo cpuMemoryInfo = Ort::MemoryInfo::CreateCpu(...);
     Ort::MemoryInfo gpuBufferMemoryInfo{...};]: the two declarations
    that stand between the checks of the arguments and the [try] block. *)
Definition create_memory_infos : M unit :=
  construct (answer_memory_info E) cpuMemoryInfo;;
  construct (answer_memory_info E) gpuBufferMemoryInfo;;
  ret tt.

Definition Run (info : list NapiValue) : M NapiValue :=
  let* w := this in
  if negb (initialized_ w) then throw (ORT_NAPI_ERROR msg_not_initialized) else
  if disposed_ w then throw (ORT_NAPI_ERROR msg_disposed) else
  if Nat.ltb (length info) 2 then throw (ORT_NAPI_TYPEERROR msg_expect_feed_fetch) else
  if negb (IsObject (arg info 0)) || negb (IsObject (arg info 1)) then
    throw (ORT_NAPI_TYPEERROR msg_feed_fetch_objects) else
  if Nat.ltb 2 (length info) && (negb (IsObject (arg info 2)) || IsNull (arg info 2)) then
    throw (ORT_NAPI_TYPEERROR msg_run_options) else
  create_memory_infos;;
  try_catch (run_steps info w).

(** ** Dispose and EndProfiling *)

Definition Dispose (info : list NapiValue) : M NapiValue :=
  let* w := this in
  if negb (initialized_ w) then throw (ORT_NAPI_ERROR msg_not_initialized) else
  if disposed_ w then throw (ORT_NAPI_ERROR msg_disposed) else
  reset_ioBinding_ None;;
  reset_session_ None;;
  update (set_disposed_ true);;
  ret NUndefined.

(** There is no [try] here: what the engine throws leaves the method as it
    is. *)
Definition EndProfiling (info : list NapiValue) : M NapiValue :=
  let* w := this in
  if negb (initialized_ w) then throw (ORT_NAPI_ERROR msg_not_initialized) else
  if disposed_ w then throw (ORT_NAPI_ERROR msg_disposed) else
  let* s := deref (session_ w) in
  let* filename := invoke (answer_name E) (EndProfilingAllocated s) in
  ret (NString filename).

(** ** The class as the host sees it *)

(** The members [DefineClass] registers in [Init]. *)
Inductive Member :=
  | loadModel (info : list NapiValue)
  | run (info : list NapiValue)
  | dispose (info : list NapiValue)
  | endProfiling (info : list NapiValue)
  | inputMetadata
  | outputMetadata.

Definition call (m : Member) : M NapiValue :=
  match m with
  | loadModel info => LoadModel info
  | run info => Run info
  | dispose info => Dispose info
  | endProfiling info => EndProfiling info
  | inputMetadata => GetMetadata true
  | outputMetadata => GetMetadata false
  end.

Definition initial : State :=
  {| self := new_InferenceSessionWrap; history := [] |}.

(** The states a session object goes through: it is constructed, then the
    host calls members one after the other, whatever each call does. *)
Inductive reachable : State -> Prop :=
  | reachable_new : reachable initial
  | reachable_call st m : reachable st -> reachable (snd (call m st)).

(** ** Notions the properties are stated with *)

(** What a call hands to the engine as inputs and as outputs of a run. *)
Definition passed_inputs (c : Call) : list (string * OrtValue) :=
  match c with
  | SessionRun _ _ inputs _ => inputs
  | BindInput _ name value => [(name, value)]
  | _ => []
  end.

Definition passed_outputs (c : Call) : list string :=
  match c with
  | SessionRun _ _ _ outputs => map fst outputs
  | BindOutput _ name _ => [name]
  | _ => []
  end.

(** The two calls that make the engine compute: [Session::Run] on the
    arrays and [Session::Run] on the binding. *)
Definition engine_run (c : Call) : bool :=
  match c with
  | SessionRun _ _ _ _ | SessionRunWithBinding _ _ _ => true
  | _ => false
  end.

(** The record after [result.Set(key, value)] for each entry in turn: a
    key that is set again keeps its place and takes the later value. *)
Definition set_all (result entries : list (string * NapiValue))
  : list (string * NapiValue) :=
  fold_left (fun acc kv => set_property acc (fst kv) (snd kv)) entries result.

(** The two argument lists the specification lets [loadModel] take, each
    with its options record and the request that creates the native
    session from parsed options. *)
Inductive accepted_arguments
  : list NapiValue -> NapiValue -> (SessionOptions -> Call) -> Prop :=
  | path_form modelPath options :
      IsObject options = true ->
      accepted_arguments [NString modelPath; options] options
        (NewSessionFromPath modelPath)
  | buffer_form buffer props byteOffset byteLength options :
      IsObject options = true ->
      accepted_arguments
        [NArrayBuffer buffer props; NNumber byteOffset; NNumber byteLength; options]
        options (NewSessionFromBuffer buffer byteOffset byteLength).

(** The engine makes the two memory descriptors of [Run] when asked
    after the calls of [st]. *)
Definition memory_infos_created (st : State) : Prop :=
  answer_memory_info E (history st) cpuMemoryInfo = inr tt
  /\ answer_memory_info E (history st) gpuBufferMemoryInfo = inr tt.

(** The session's states as the specification names them. *)
Definition Fresh (w : InferenceSessionWrap) : Prop :=
  initialized_ w = false /\ disposed_ w = false.
Definition Loaded (w : InferenceSessionWrap) : Prop :=
  initialized_ w = true /\ disposed_ w = false.
Definition Disposed (w : InferenceSessionWrap) : Prop :=
  disposed_ w = true.

(** ** Notions the proofs are made with *)

(** [keeps_relation R m]: the states before and after [m] are related by [R],
    however [m] completes. *)
Definition keeps_relation (R : State -> State -> Prop) {A} (m : M A) : Prop :=
  forall st, R st (snd (m st)).

(** The session object keeps the value of [f]. *)
Definition unchanged {B} (f : InferenceSessionWrap -> B) : State -> State -> Prop :=
  fun st st' => f (self st') = f (self st).

(** The history is only added to. *)
Definition history_grows : State -> State -> Prop :=
  fun st st' => exists new, history st' = history st ++ new.

(** What [create_session] does not write: everything but [session_]. *)
Definition outside_session (w : InferenceSessionWrap) :=
  (initialized_ w, disposed_ w, inputNames_ w, inputTypes_ w, outputNames_ w,
   outputTypes_ w, preferredOutputLocations_ w, ioBinding_ w).

(** What the caching of names and types does not write. *)
Definition outside_metadata (w : InferenceSessionWrap) :=
  (initialized_ w, disposed_ w, session_ w, preferredOutputLocations_ w,
   ioBinding_ w).

(** What the caching of the preferred locations does not write. *)
Definition outside_locations (w : InferenceSessionWrap) :=
  (initialized_ w, disposed_ w, session_ w, inputNames_ w, inputTypes_ w,
   outputNames_ w, outputTypes_ w).

(** The vectors of names and types grow in step, a name first. *)
Definition aligned (w : InferenceSessionWrap) : Prop :=
  length (inputTypes_ w) <= length (inputNames_ w)
  /\ length (outputTypes_ w) <= length (outputNames_ w).

Definition mark_initialized (st : State) : State :=
  {| self := set_initialized_ true (self st); history := history st |}.

Definition consistent (w : InferenceSessionWrap) : Prop :=
  (disposed_ w = true ->
     initialized_ w = true /\ session_ w = None /\ ioBinding_ w = None)
  /\ (initialized_ w = false -> ioBinding_ w = None)
  /\ (Loaded w ->
        is_Some (session_ w)
        /\ (is_Some (ioBinding_ w) <-> preferredOutputLocations_ w <> []))
  /\ aligned w.

Definition metadata (w : InferenceSessionWrap) :=
  (inputNames_ w, inputTypes_ w, outputNames_ w, outputTypes_ w).

(** The history grows by calls that carry no input and no output. *)
Definition history_quiet : State -> State -> Prop :=
  fun st st' =>
    exists new, history st' = history st ++ new
                /\ flat_map passed_inputs new = []
                /\ flat_map passed_outputs new = [].

(** What a piece of [Run] hands over: some first inputs and outputs of
    the ones it was given, and all of them once the engine is made to
    compute, as it is when the piece returns. *)
Definition hands_over {A} (ins : list (string * OrtValue)) (outs : list string)
    (st : State) (out : Completion A * State) : Prop :=
  exists new,
    history (snd out) = history st ++ new
    /\ flat_map passed_inputs new `prefix_of` ins
    /\ flat_map passed_outputs new `prefix_of` outs
    /\ (forall r, fst out = Return r -> existsb engine_run new = true)
    /\ (existsb engine_run new = true ->
          flat_map passed_inputs new = ins /\ flat_map passed_outputs new = outs).

(** What a [run] call hands over, in terms of its two records. *)
Definition supplies {A} (info : list NapiValue) (st : State)
    (out : Completion A * State) : Prop :=
  exists new,
    history (snd out) = history st ++ new
    /\ map fst (flat_map passed_inputs new)
         `prefix_of` List.filter (Has (arg info 0)) (inputNames_ (self st))
    /\ flat_map passed_outputs new
         `prefix_of` List.filter (Has (arg info 1)) (outputNames_ (self st))
    /\ (forall name v, In (name, v) (flat_map passed_inputs new) ->
          NapiValueToOrtValue H (Get (arg info 0) name) cpuMemoryInfo
            gpuBufferMemoryInfo = inr v)
    /\ (forall r, fst out = Return r -> existsb engine_run new = true)
    /\ (existsb engine_run new = true ->
          map fst (flat_map passed_inputs new)
            = List.filter (Has (arg info 0)) (inputNames_ (self st))
          /\ flat_map passed_outputs new
             = List.filter (Has (arg info 1)) (outputNames_ (self st))).

(** [m] does not run into undefined behaviour from [st]. *)
Definition defined {A} (m : M A) (st : State) : Prop := fst (m st) <> Undefined.

(** A result record whose keys are declared output names. *)
Definition keyed_by_declared (w : InferenceSessionWrap) (r : NapiValue) : Prop :=
  exists props, r = NObject props
                /\ forall k, In k (map fst props) -> In k (outputNames_ w).

End Binding.

Arguments Call : clear implicits.
Arguments Engine : clear implicits.
Arguments Helpers : clear implicits.
Arguments InferenceSessionWrap : clear implicits.
Arguments State : clear implicits.
Arguments Return {A} a.
Arguments Raise {A} t.
Arguments Undefined {A}.

(** ** ListSupportedBackends *)

(** The macros that decide, when the binding is built, which backends
    [ListSupportedBackends] reports. *)
Record BuildFlags := {
  USE_DML : bool;
  USE_WEBGPU : bool;
  USE_CUDA : bool;
  USE_TENSORRT : bool;
  USE_COREML : bool;
  USE_QNN : bool
}.

(** The lambda [createObject] of [ListSupportedBackends]. *)
Definition createObject (name : string) (bundled : bool) : NapiValue :=
  let result := [] in
  let result := set_property result "name" (NString name) in
  let result := set_property result "bundled" (NBoolean bundled) in
  NObject result.

(** [array.Set(i, value)] on the elements of a host array: an index in
    range is overwritten, an index past the end extends the array, and
    the places in between are left [undefined]. *)
Definition Array_Set (items : list NapiValue) (i : nat) (value : NapiValue)
  : list NapiValue :=
  if Nat.ltb i (length items) then <[i := value]> items
  else items ++ replicate (i - length items) NUndefined ++ [value].

(** The elements of the array that [ListSupportedBackends] fills;
    [result.Length()] is the length of the list so far. *)
Definition supported_backends (flags : BuildFlags) : list NapiValue :=
  let result := [] in
  let result := Array_Set result 0 (createObject "cpu" true) in
  let result :=
    if USE_DML flags
    then Array_Set result (length result) (createObject "dml" true) else result in
  let result :=
    if USE_WEBGPU flags
    then Array_Set result (length result) (createObject "webgpu" true) else result in
  let result :=
    if USE_CUDA flags
    then Array_Set result (length result) (createObject "cuda" false) else result in
  let result :=
    if USE_TENSORRT flags
    then Array_Set result (length result) (createObject "tensorrt" false) else result in
  let result :=
    if USE_COREML flags
    then Array_Set result (length result) (createObject "coreml" true) else result in
  let result :=
    if USE_QNN flags
    then Array_Set result (length result) (createObject "qnn" true) else result in
  result.

Definition ListSupportedBackends (flags : BuildFlags) (info : list NapiValue)
  : NapiValue :=
  napi_array (supported_backends flags).

(** ** A sample environment for concrete runs *)

(** A small engine whose values are texts.  Every model it opens has one
    input [x] and two outputs [a] and [b]; output [n] is computed as the
    text [n(v)] from the value [v] fed for [x].  Opening the path
    [missing.onnx] fails. *)
Module Sample.

Definition f32_2 : TypeInfo :=
  {| GetONNXType := ONNX_TYPE_TENSOR; GetElementType := 1;
     GetSymbolicDimensions := [""]; GetShape := [2%Z] |}.

Definition input_names : list string := ["x"].
Definition output_names : list string := ["a"; "b"].

Definition fed (inputs : list (string * string)) : string :=
  match inputs with (_, v) :: _ => v | [] => "" end.

Definition compute (inputs : list (string * string)) (name : string) : string :=
  name +:+ "(" +:+ fed inputs +:+ ")".

Definition SCall := Call string NapiValue NapiValue nat nat.

(** What an I/O binding holds after the calls of a history: the inputs
    in the order they were bound, and the output names, each once, in
    the order they were first bound. *)
Fixpoint bound_inputs (h : list SCall) : list (string * string) :=
  match h with
  | [] => []
  | BindInput _ n v :: h' => (n, v) :: bound_inputs h'
  | _ :: h' => bound_inputs h'
  end.

Fixpoint bound_outputs (h : list SCall) : list string :=
  match h with
  | [] => []
  | BindOutput _ n _ :: h' =>
      n :: List.filter (fun k => negb (String.eqb k n)) (bound_outputs h')
  | _ :: h' => bound_outputs h'
  end.

Definition unexpected {A} : Thrown + A := inl (StdException "unexpected call").

Definition engine : Engine string NapiValue NapiValue nat nat :=
  {| answer_session := fun h c =>
       match c with
       | NewSessionFromPath path _ =>
           if String.eqb path "missing.onnx"
           then inl (StdException "Load model from missing.onnx failed")
           else inr 1
       | NewSessionFromBuffer _ _ _ _ => inr 1
       | _ => unexpected
       end;
     answer_count := fun h c =>
       match c with
       | GetInputCount _ => inr (length input_names)
       | GetOutputCount _ => inr (length output_names)
       | _ => unexpected
       end;
     answer_name := fun h c =>
       match c with
       | GetInputNameAllocated _ i => inr (nth i input_names "")
       | GetOutputNameAllocated _ i => inr (nth i output_names "")
       | EndProfilingAllocated _ => inr "profile.json"
       | _ => unexpected
       end;
     answer_type := fun h c => inr f32_2;
     answer_binding := fun h c => inr 7;
     answer_values := fun h c =>
       match c with
       | SessionRun _ _ inputs outputs => inr (map (compute inputs) (map fst outputs))
       | GetOutputValues _ =>
           inr (map (compute (rev (bound_inputs h))) (bound_outputs h))
       | _ => unexpected
       end;
     answer_status := fun h c => inr tt;
     answer_memory_info := fun h mem => inr tt |}.

Definition parse_location (v : NapiValue) : option DataLocation :=
  match v with
  | NString s =>
      if String.eqb s "cpu" then Some DATA_LOCATION_CPU
      else if String.eqb s "gpu-buffer" then Some DATA_LOCATION_GPU_BUFFER
      else None
  | _ => None
  end.

Definition invalid_location : Thrown :=
  NapiError TypeError "Invalid argument: preferredOutputLocations.".

(** The locations of the outputs from a record keyed by output name; an
    output without an entry stays with the CPU. *)
Fixpoint locations_by_name (ps : list (string * NapiValue))
    (outputNames : list string) : option (list DataLocation) :=
  match outputNames with
  | [] => Some []
  | name :: names' =>
      match
        (match find_property ps name with
         | Some v => parse_location v
         | None => Some DATA_LOCATION_CPU
         end),
        locations_by_name ps names'
      with
      | Some l, Some ls => Some (l :: ls)
      | _, _ => None
      end
  end.

(** Modelled from the spec: [ParsePreferredOutputLocations] is not in the
    sources at hand.  Nothing is written when the record has no preferred
    locations.  Otherwise they are a single location text, applied to all
    outputs, or a record keyed by output name; a key that is not an
    output name and a location that is not recognized fail. *)
Definition parse_preferred (options : NapiValue) (outputNames : list string)
    (locations : list DataLocation) : list DataLocation * option Thrown :=
  if Has options "preferredOutputLocations" then
    match Get options "preferredOutputLocations" with
    | NString s =>
        match parse_location (NString s) with
        | Some l => (replicate (length outputNames) l, None)
        | None => (locations, Some invalid_location)
        end
    | NObject ps =>
        if forallb (fun kv => existsb (String.eqb (fst kv)) outputNames) ps then
          match locations_by_name ps outputNames with
          | Some ls => (ls, None)
          | None => (locations, Some invalid_location)
          end
        else (locations, Some invalid_location)
    | _ => (locations, Some invalid_location)
    end
  else (locations, None).

Definition helpers : Helpers string NapiValue NapiValue :=
  {| new_SessionOptions := NObject [];
     new_RunOptions := NObject [];
     OrtDefaultRunOptions := NObject [];
     null_OrtValue := "";
     ParseSessionOptions := fun o _ =>
       if Has o "graphOptimizationLevel"
       then inl (NapiError TypeError "Invalid argument: graphOptimizationLevel.")
       else inr o;
     ParseRunOptions := fun o _ => inr o;
     ParsePreferredOutputLocations := parse_preferred;
     NapiValueToOrtValue := fun v _ _ =>
       match v with
       | NString s => inr s
       | _ => inl (NapiError TypeError "Unsupported tensor.")
       end;
     OrtValueToNapiValue := fun v => inr (NString v) |}.

Definition start : State string NapiValue NapiValue nat nat := initial.

(** The members called one after the other on a state. *)
Fixpoint calls (ms : list Member) (st : State string NapiValue NapiValue nat nat) :=
  match ms with
  | [] => st
  | m :: ms' => calls ms' (snd (call engine helpers m st))
  end.

Definition load_path : Member := loadModel [NString "model.onnx"; NObject []].
Definition load_gpu : Member :=
  loadModel [NString "model.onnx";
             NObject [("preferredOutputLocations", NString "gpu-buffer")]].
Definition load_bogus : Member :=
  loadModel [NString "model.onnx";
             NObject [("preferredOutputLocations", NString "bogus")]].

(** The states of the sample session after a load, after a load with
    preferred locations, after a load that fails, and after [dispose]. *)
Definition loaded :=
  Eval vm_compute in calls [load_path] start.
Definition loaded_gpu :=
  Eval vm_compute in calls [load_gpu] start.
Definition load_failed :=
  Eval vm_compute in calls [load_bogus] start.
Definition disposed :=
  Eval vm_compute in calls [load_path; dispose []] start.
Definition disposed_gpu :=
  Eval vm_compute in calls [load_gpu; dispose []] start.

Definition feed_x : NapiValue := NObject [("x", NString "1.5")].
Definition fetch_b : NapiValue := NObject [("b", NNull)].

(** A fetch record that asks for both outputs, a feed whose value does
    not convert, and the session after a load that failed late and a
    second load that succeeded. *)
Definition fetch_ab : NapiValue := NObject [("a", NNull); ("b", NNull)].
Definition feed_bad : NapiValue := NObject [("x", NNumber 1)].
Definition loaded_twice :=
  Eval vm_compute in calls [load_bogus; load_path] start.


(** An engine like [engine] that cannot make the memory descriptor of
    the GPU buffers. *)
Definition engine_without_gpu : Engine string NapiValue NapiValue nat nat :=
  {| answer_session := answer_session engine;
     answer_count := answer_count engine;
     answer_name := answer_name engine;
     answer_type := answer_type engine;
     answer_binding := answer_binding engine;
     answer_values := answer_values engine;
     answer_status := answer_status engine;
     answer_memory_info := fun h mem =>
       match mem with
       | cpuMemoryInfo => inr tt
       | gpuBufferMemoryInfo =>
           inl (StdException "WebGPU_Buffer memory is not available")
       end |}.

End Sample.

(** * Properties *)

Section Properties.

Context {OrtValue SessionOptions RunOptions OrtSession OrtIoBinding : Type}.

Abbreviation Wrap :=
  (InferenceSessionWrap OrtSession OrtIoBinding).
Abbreviation St :=
  (State OrtValue SessionOptions RunOptions OrtSession OrtIoBinding).
Abbreviation Request :=
  (SessionOptions -> Call OrtValue SessionOptions RunOptions OrtSession OrtIoBinding).
Abbreviation same f :=
  (unchanged (OrtValue:=OrtValue) (SessionOptions:=SessionOptions)
     (RunOptions:=RunOptions) f).
Abbreviation grows :=
  (history_grows (OrtValue:=OrtValue) (SessionOptions:=SessionOptions)
     (RunOptions:=RunOptions) (OrtSession:=OrtSession)
     (OrtIoBinding:=OrtIoBinding)).
Abbreviation quiet :=
  (history_quiet (OrtValue:=OrtValue) (SessionOptions:=SessionOptions)
     (RunOptions:=RunOptions) (OrtSession:=OrtSession)
     (OrtIoBinding:=OrtIoBinding)).
Abbreviation keeps R m :=
  (keeps_relation (OrtValue:=OrtValue) (SessionOptions:=SessionOptions)
     (RunOptions:=RunOptions) (OrtSession:=OrtSession)
     (OrtIoBinding:=OrtIoBinding) R m).
Abbreviation Action A :=
  (@M OrtValue SessionOptions RunOptions OrtSession OrtIoBinding A).

Variable E : Engine OrtValue SessionOptions RunOptions OrtSession OrtIoBinding.
Variable H : Helpers OrtValue SessionOptions RunOptions.

(** ** What an action keeps *)

#[local] Instance same_preorder {B} (f : Wrap -> B) : PreOrder (same f).
Proof.
  split.
  - intros st. reflexivity.
  - intros a b c Hab Hbc. unfold unchanged in *. congruence.
Qed.

#[local] Instance grows_preorder : PreOrder grows.
Proof.
  split.
  - intros st. exists []. now rewrite app_nil_r.
  - intros a b c [n1 H1] [n2 H2]. exists (n1 ++ n2).
    rewrite H2, H1. now rewrite app_assoc.
Qed.

Section Keeps.

Context (R : St -> St -> Prop) `{!PreOrder R}.

Lemma keeps_ret {A} (a : A) : keeps R (ret a).
Proof. intros st. reflexivity. Qed.

Lemma keeps_throw {A} t : keeps R (@throw _ _ _ _ _ A t).
Proof. intros st. reflexivity. Qed.

Lemma keeps_undefined {A} : keeps R (@undefined _ _ _ _ _ A).
Proof. intros st. reflexivity. Qed.

Lemma keeps_this : keeps R this.
Proof. intros st. reflexivity. Qed.

Lemma keeps_lift {A} (r : Thrown + A) : keeps R (lift r).
Proof. destruct r; intros st; reflexivity. Qed.

Lemma keeps_deref {A} (p : option A) : keeps R (deref p).
Proof. destruct p; intros st; reflexivity. Qed.

Lemma keeps_complete {A} (c : Completion A) : keeps R (complete c).
Proof. intros st. reflexivity. Qed.

Lemma keeps_bind {A B} (m : Action A) (k : A -> Action B) :
  keeps R m -> (forall a, keeps R (k a)) -> keeps R (bind m k).
Proof.
  intros Hm Hk st. unfold bind. specialize (Hm st).
  destruct (m st) as [[a | t | ] st1]; simpl in *; try assumption.
  transitivity st1; [assumption | apply Hk].
Qed.

Lemma keeps_try_catch {A} (m : Action A) : keeps R m -> keeps R (try_catch m).
Proof.
  intros Hm st. unfold try_catch. specialize (Hm st).
  destruct (m st) as [[a | t | ] st1]; simpl in *; assumption.
Qed.

Lemma keeps_construct answer mem :
  keeps R (@construct _ _ _ _ _ answer mem).
Proof. intros st. unfold construct. now destruct (answer (history st) mem). Qed.

End Keeps.

(** The two descriptors are made, and nothing has changed, or the first
    construction that fails throws, and nothing has changed. *)
Lemma create_memory_infos_cases (st : St) :
  (memory_infos_created E st /\ create_memory_infos E st = (Return tt, st))
  \/ (exists t, ~ memory_infos_created E st
                /\ create_memory_infos E st = (Raise t, st)
                /\ (answer_memory_info E (history st) cpuMemoryInfo = inl t
                    \/ answer_memory_info E (history st) cpuMemoryInfo = inr tt
                       /\ answer_memory_info E (history st) gpuBufferMemoryInfo
                          = inl t)).
Proof.
  unfold create_memory_infos, memory_infos_created, bind, construct, ret.
  destruct (answer_memory_info E (history st) cpuMemoryInfo) as [t | []].
  - right. exists t. split; [intros [N _]; discriminate |]. auto.
  - destruct (answer_memory_info E (history st) gpuBufferMemoryInfo) as [t | []].
    + right. exists t. split; [intros [_ N]; discriminate |]. auto.
    + left. auto.
Qed.

Lemma with_memory_infos {A} (m : Action A) (st : St) :
  memory_infos_created E st ->
  bind (create_memory_infos E) (fun _ => m) st = m st.
Proof.
  intros C. unfold bind.
  destruct (create_memory_infos_cases st) as [[_ ->] | (t & N & _)];
    [reflexivity | contradiction].
Qed.

Lemma without_memory_infos {A} (m : Action A) (st : St) t :
  create_memory_infos E st = (Raise t, st) ->
  bind (create_memory_infos E) (fun _ => m) st = (Raise t, st).
Proof. intros C. unfold bind. now rewrite C. Qed.

Lemma keeps_update_same {B} (f : Wrap -> B) g :
  (forall w, f (g w) = f w) -> keeps (same f) (update g).
Proof. intros Hg st. unfold unchanged. simpl. apply Hg. Qed.

Lemma keeps_invoke_same {A B} (f : Wrap -> B) answer c :
  keeps (same f) (@invoke _ _ _ _ _ A answer c).
Proof. intros st. unfold unchanged, invoke. now destruct (answer (history st) c). Qed.

Lemma keeps_release_same {B} (f : Wrap -> B) c : keeps (same f) (release c).
Proof. intros st. reflexivity. Qed.

Lemma keeps_update_grows g : keeps grows (update g).
Proof. intros st. exists []. simpl. now rewrite app_nil_r. Qed.

Lemma keeps_invoke_grows {A} answer c : keeps grows (@invoke _ _ _ _ _ A answer c).
Proof.
  intros st. exists [c]. unfold invoke.
  now destruct (answer (history st) c).
Qed.

Lemma keeps_release_grows c : keeps grows (release c).
Proof. intros st. exists [c]. reflexivity. Qed.

Ltac solve_preorder :=
  try match goal with |- PreOrder _ => typeclasses eauto end.

Ltac keeps_step :=
  first
    [ apply keeps_bind; solve_preorder; [ | intros ? ]
    | apply keeps_ret; solve_preorder
    | apply keeps_throw; solve_preorder
    | apply keeps_undefined; solve_preorder
    | apply keeps_this; solve_preorder
    | apply keeps_lift; solve_preorder
    | apply keeps_deref; solve_preorder
    | apply keeps_complete; solve_preorder
    | apply keeps_try_catch; solve_preorder
    | apply keeps_construct; solve_preorder
    | apply keeps_invoke_same | apply keeps_release_same
    | apply keeps_invoke_grows | apply keeps_release_grows
    | apply keeps_update_grows
    | apply keeps_update_same; intros; reflexivity
    | match goal with
      | |- keeps _ (if ?b then _ else _) => destruct b
      | |- keeps _ (match ?x with _ => _ end) => destruct x
      end
    | assumption ].

Ltac keeps_auto := repeat keeps_step.

(** ** The methods that leave the session object alone *)

Lemma bind_inputs_keeps_self inputs : keeps (same id) (bind_inputs E inputs).
Proof.
  induction inputs as [| [name value] inputs IH]; simpl; keeps_auto.
Qed.

Lemma bind_outputs_keeps_self names i : keeps (same id) (bind_outputs E names i).
Proof.
  revert i. induction names as [| name names IH]; intros i; simpl;
    unfold index; keeps_auto. apply IH.
Qed.

Lemma Run_keeps_self info : keeps (same id) (Run E H info).
Proof.
  unfold Run, create_memory_infos, run_steps, run_direct, run_io_binding.
  keeps_auto.
  - apply bind_inputs_keeps_self.
  - apply bind_outputs_keeps_self.
Qed.

Lemma GetMetadata_keeps_self is_input : keeps (same id) (GetMetadata is_input).
Proof. unfold GetMetadata. keeps_auto. Qed.

Lemma EndProfiling_keeps_self info : keeps (same id) (EndProfiling E info).
Proof. unfold EndProfiling. keeps_auto. Qed.

Lemma GetMetadata_keeps_state is_input (st : St) :
  snd (GetMetadata is_input st) = st.
Proof.
  unfold GetMetadata, bind, this. simpl.
  destruct (negb (initialized_ (self st))); [reflexivity |].
  destruct (disposed_ (self st)); [reflexivity |].
  destruct (metadata_entries _ _ 0); reflexivity.
Qed.

(** ** The state guards *)

Lemma LoadModel_when_initialized info (st : St) :
  initialized_ (self st) = true ->
  LoadModel E H info st = (Raise (ORT_NAPI_ERROR msg_already_loaded), st).
Proof. intros Hi. unfold LoadModel, bind, this. simpl. now rewrite Hi. Qed.

Lemma Run_when_not_initialized info (st : St) :
  initialized_ (self st) = false ->
  Run E H info st = (Raise (ORT_NAPI_ERROR msg_not_initialized), st).
Proof. intros Hi. unfold Run, bind, this. simpl. now rewrite Hi. Qed.

Lemma GetMetadata_when_not_initialized is_input (st : St) :
  initialized_ (self st) = false ->
  GetMetadata is_input st = (Raise (ORT_NAPI_ERROR msg_not_initialized), st).
Proof. intros Hi. unfold GetMetadata, bind, this. simpl. now rewrite Hi. Qed.

Lemma Dispose_when_not_initialized info (st : St) :
  initialized_ (self st) = false ->
  Dispose info st = (Raise (ORT_NAPI_ERROR msg_not_initialized), st).
Proof. intros Hi. unfold Dispose, bind, this. simpl. now rewrite Hi. Qed.

Lemma EndProfiling_when_not_initialized info (st : St) :
  initialized_ (self st) = false ->
  EndProfiling E info st = (Raise (ORT_NAPI_ERROR msg_not_initialized), st).
Proof. intros Hi. unfold EndProfiling, bind, this. simpl. now rewrite Hi. Qed.

Lemma Run_when_disposed info (st : St) :
  initialized_ (self st) = true -> disposed_ (self st) = true ->
  Run E H info st = (Raise (ORT_NAPI_ERROR msg_disposed), st).
Proof. intros Hi Hd. unfold Run, bind, this. simpl. now rewrite Hi, Hd. Qed.

Lemma GetMetadata_when_disposed is_input (st : St) :
  initialized_ (self st) = true -> disposed_ (self st) = true ->
  GetMetadata is_input st = (Raise (ORT_NAPI_ERROR msg_disposed), st).
Proof. intros Hi Hd. unfold GetMetadata, bind, this. simpl. now rewrite Hi, Hd. Qed.

Lemma Dispose_when_disposed info (st : St) :
  initialized_ (self st) = true -> disposed_ (self st) = true ->
  Dispose info st = (Raise (ORT_NAPI_ERROR msg_disposed), st).
Proof. intros Hi Hd. unfold Dispose, bind, this. simpl. now rewrite Hi, Hd. Qed.

Lemma EndProfiling_when_disposed info (st : St) :
  initialized_ (self st) = true -> disposed_ (self st) = true ->
  EndProfiling E info st = (Raise (ORT_NAPI_ERROR msg_disposed), st).
Proof. intros Hi Hd. unfold EndProfiling, bind, this. simpl. now rewrite Hi, Hd. Qed.

Create HintDb monad.

#[local] Hint Unfold bind this lift deref invoke release ret throw undefined
  update complete index : monad.

(** One round of the monad's operations, unfolded and computed. *)
Ltac run := repeat (progress (autounfold with monad; simpl)).

(** ** The steps of LoadModel *)

Lemma create_session_outside info :
  keeps (same outside_session) (create_session E H info).
Proof. unfold create_session, reset_session_. keeps_auto. Qed.

(** The native session is stored by the last statement of its branch: when
    [create_session] does not return, the session object is as before. *)
Lemma create_session_stores info (st : St) :
  match fst (create_session E H info st) with
  | Return _ => is_Some (session_ (self (snd (create_session E H info st))))
  | _ => self (snd (create_session E H info st)) = self st
  end.
Proof.
  unfold create_session, reset_session_.
  destruct (_ && _ && _).
  - run. destruct (ParseSessionOptions _ _ _); run; [reflexivity |].
    destruct (answer_session _ _ _); run; [reflexivity |].
    destruct (session_ (self st)); run; eauto.
  - destruct (_ && _ && _ && _ && _); [| reflexivity].
    run. destruct (ParseSessionOptions _ _ _); run; [reflexivity |].
    destruct (answer_session _ _ _); run; [reflexivity |].
    destruct (session_ (self st)); run; eauto.
Qed.

Lemma cache_inputs_outside todo i :
  keeps (same outside_metadata) (cache_inputs E todo i).
Proof.
  revert i. induction todo as [| todo IH]; intros i; simpl; keeps_auto.
  apply IH.
Qed.

Lemma cache_outputs_outside todo i :
  keeps (same outside_metadata) (cache_outputs E todo i).
Proof.
  revert i. induction todo as [| todo IH]; intros i; simpl; keeps_auto.
  apply IH.
Qed.

Lemma cache_names_and_types_outside :
  keeps (same outside_metadata) (cache_names_and_types E).
Proof.
  unfold cache_names_and_types. keeps_auto.
  - apply cache_inputs_outside.
  - apply cache_outputs_outside.
Qed.

Lemma cache_preferred_output_locations_outside info :
  keeps (same outside_locations) (cache_preferred_output_locations E H info).
Proof.
  unfold cache_preferred_output_locations, reset_ioBinding_.
  apply keeps_bind; solve_preorder; [keeps_auto |]. intros w.
  destruct (ParsePreferredOutputLocations _ _ _ _) as [locations thrown].
  keeps_auto.
Qed.

(** The binding is made after the last statement that can throw: when the
    step does not return, [ioBinding_] is as before; when it returns, the
    binding is there exactly if locations were written. *)
Lemma cache_preferred_output_locations_binding info (st : St) :
  let st' := snd (cache_preferred_output_locations E H info st) in
  match fst (cache_preferred_output_locations E H info st) with
  | Return _ =>
      (preferredOutputLocations_ (self st') <> [] /\ is_Some (ioBinding_ (self st')))
      \/ (preferredOutputLocations_ (self st') = []
          /\ ioBinding_ (self st') = ioBinding_ (self st))
  | _ => ioBinding_ (self st') = ioBinding_ (self st)
  end.
Proof.
  unfold cache_preferred_output_locations, bind, this. simpl.
  destruct (ParsePreferredOutputLocations _ _ _ _) as [locations [t |]]; simpl;
    [reflexivity |].
  destruct locations as [| l locations]; simpl; [now right |].
  unfold deref. destruct (session_ (self st)); simpl; [| reflexivity].
  unfold invoke. destruct (answer_binding _ _ _); simpl; [reflexivity |].
  unfold reset_ioBinding_, bind, this. simpl.
  destruct (ioBinding_ (self st)); simpl; left; split; eauto; discriminate.
Qed.

Lemma cache_inputs_aligned todo i (st : St) :
  aligned (self st) -> aligned (self (snd (cache_inputs E todo i st))).
Proof.
  revert i st. induction todo as [| todo IH]; intros i st Ha; simpl; [assumption |].
  unfold bind, this, deref. simpl.
  destruct (session_ (self st)); simpl; [| assumption].
  unfold invoke at 1. destruct (answer_name _ _ _); simpl; [assumption |].
  unfold invoke at 1. simpl.
  destruct (answer_type _ _ _); simpl.
  - destruct Ha as [Hi Ho]. split; simpl; [| assumption].
    rewrite length_app. simpl. lia.
  - apply IH. destruct Ha as [Hi Ho]. split; simpl; [| assumption].
    rewrite !length_app. simpl. lia.
Qed.

Lemma cache_outputs_aligned todo i (st : St) :
  aligned (self st) -> aligned (self (snd (cache_outputs E todo i st))).
Proof.
  revert i st. induction todo as [| todo IH]; intros i st Ha; simpl; [assumption |].
  unfold bind, this, deref. simpl.
  destruct (session_ (self st)); simpl; [| assumption].
  unfold invoke at 1. destruct (answer_name _ _ _); simpl; [assumption |].
  unfold invoke at 1. simpl.
  destruct (answer_type _ _ _); simpl.
  - destruct Ha as [Hi Ho]. split; simpl; [assumption |].
    rewrite length_app. simpl. lia.
  - apply IH. destruct Ha as [Hi Ho]. split; simpl; [assumption |].
    rewrite !length_app. simpl. lia.
Qed.

Lemma cache_names_and_types_aligned (st : St) :
  aligned (self st) -> aligned (self (snd (cache_names_and_types E st))).
Proof.
  intros Ha. unfold cache_names_and_types, bind, this, deref. simpl.
  destruct (session_ (self st)); simpl; [| assumption].
  unfold invoke at 1. destruct (answer_count _ _ _); simpl; [assumption |].
  match goal with |- context [cache_inputs E ?n 0 ?s] =>
    pose proof (cache_inputs_aligned n 0 s Ha) as Hin;
    destruct (cache_inputs E n 0 s) as [[[] | t |] st1] end;
    simpl in *; try assumption.
  unfold invoke at 1. destruct (answer_count _ _ _); simpl; [assumption |].
  now apply cache_outputs_aligned.
Qed.

(** ** LoadModel on a fresh session *)

Lemma LoadModel_fresh info (st : St) :
  Fresh (self st) -> length info <> 0 ->
  LoadModel E H info st =
    match load_steps E H info st with
    | (Return _, st1) => (Return NUndefined, mark_initialized st1)
    | (Raise t, st1) => (Raise (rethrow t), st1)
    | (Undefined, st1) => (Undefined, st1)
    end.
Proof.
  intros [Hi Hd] Hlen. unfold LoadModel, bind at 1, this. simpl.
  rewrite Hi, Hd. destruct (Nat.eqb_spec (length info) 0) as [|_]; [contradiction |].
  unfold bind, try_catch.
  destruct (load_steps E H info st) as [[[] | t |] st1]; reflexivity.
Qed.

Lemma load_steps_effect info (st : St) :
  let c := fst (load_steps E H info st) in
  let st' := snd (load_steps E H info st) in
  initialized_ (self st') = initialized_ (self st)
  /\ disposed_ (self st') = disposed_ (self st)
  /\ (aligned (self st) -> aligned (self st'))
  /\ match c with
     | Return _ =>
         is_Some (session_ (self st'))
         /\ ((preferredOutputLocations_ (self st') <> []
              /\ is_Some (ioBinding_ (self st')))
             \/ (preferredOutputLocations_ (self st') = []
                 /\ ioBinding_ (self st') = ioBinding_ (self st)))
     | _ => ioBinding_ (self st') = ioBinding_ (self st)
     end.
Proof.
  unfold load_steps, bind.
  pose proof (create_session_outside info st) as O1.
  pose proof (create_session_stores info st) as S1.
  destruct (create_session E H info st) as [c1 st1]. simpl in O1, S1.
  unfold unchanged, outside_session in O1.
  injection O1 as I1 I2 I3 I4 I5 I6 I7 I8.
  assert (aligned (self st) -> aligned (self st1)) as A1.
  { unfold aligned. rewrite I3, I4, I5, I6. intros Ha. exact Ha. }
  destruct c1 as [[] | t |]; simpl;
    [| refine (conj _ (conj _ (conj A1 _))); congruence ..].
  pose proof (cache_names_and_types_outside st1) as O2.
  pose proof (cache_names_and_types_aligned st1) as A2.
  destruct (cache_names_and_types E st1) as [c2 st2]. simpl in O2, A2.
  unfold unchanged, outside_metadata in O2.
  injection O2 as E1 E2 E3 E4 E5.
  destruct c2 as [[] | t |]; simpl;
    [| refine (conj _ (conj _ (conj (fun a => A2 (A1 a)) _))); congruence ..].
  pose proof (cache_preferred_output_locations_outside info st2) as O3.
  pose proof (cache_preferred_output_locations_binding info st2) as B3.
  destruct (cache_preferred_output_locations E H info st2) as [c3 st3].
  simpl in O3, B3. unfold unchanged, outside_locations in O3.
  injection O3 as F1 F2 F3 F4 F5 F6 F7. simpl.
  refine (conj _ (conj _ (conj _ _))); try congruence.
  - intros Ha. specialize (A2 (A1 Ha)). unfold aligned in *.
    rewrite F4, F5, F6, F7. exact A2.
  - destruct c3 as [[] | t |]; try congruence.
    split; [rewrite F3, E3; exact S1 |].
    destruct B3 as [B3 | [B3 B4]]; [now left | right].
    split; congruence.
Qed.

(** ** What holds of every state a session goes through *)

Lemma LoadModel_consistent info (st : St) :
  consistent (self st) -> consistent (self (snd (LoadModel E H info st))).
Proof.
  intros C. destruct (initialized_ (self st)) eqn:Hi.
  { now rewrite LoadModel_when_initialized. }
  destruct (disposed_ (self st)) eqn:Hd.
  { destruct C as [C1 _]. destruct (C1 Hd) as [? _]. congruence. }
  destruct (Nat.eq_dec (length info) 0) as [Hz | Hnz].
  { unfold LoadModel, bind, this. simpl. rewrite Hi, Hd, Hz. exact C. }
  rewrite LoadModel_fresh by (try split; assumption).
  assert (forall st1 : St,
            initialized_ (self st1) = initialized_ (self st) ->
            disposed_ (self st1) = disposed_ (self st) ->
            (aligned (self st) -> aligned (self st1)) ->
            ioBinding_ (self st1) = ioBinding_ (self st) ->
            consistent (self st1)) as Failed.
  { intros st1 Ki Kd Ka Kb. refine (conj _ (conj _ (conj _ _))).
    - intros D. congruence.
    - intros _. rewrite Kb. now apply C.
    - intros [I _]. congruence.
    - apply Ka, C. }
  pose proof (load_steps_effect info st) as (Ki & Kd & Ka & Kc).
  destruct (load_steps E H info st) as [[[] | t |] st1]; simpl in *;
    [| now apply Failed ..].
  destruct C as (C1 & C2 & C3 & C4). destruct Kc as [Ks Kb].
  refine (conj _ (conj _ (conj _ _))); simpl.
  - intros D. congruence.
  - discriminate.
  - intros _. split; [exact Ks |].
    destruct Kb as [[Kp Kb] | [Kp Kb]]; [tauto |].
    rewrite Kb, (C2 Hi), Kp. split; [intros [? ?]; discriminate | congruence].
  - now apply Ka.
Qed.

Lemma Dispose_effect info (st : St) :
  Loaded (self st) ->
  let st' := snd (Dispose info st) in
  fst (Dispose info st) = Return NUndefined
  /\ initialized_ (self st') = true /\ disposed_ (self st') = true
  /\ session_ (self st') = None /\ ioBinding_ (self st') = None
  /\ inputNames_ (self st') = inputNames_ (self st)
  /\ inputTypes_ (self st') = inputTypes_ (self st)
  /\ outputNames_ (self st') = outputNames_ (self st)
  /\ outputTypes_ (self st') = outputTypes_ (self st)
  /\ preferredOutputLocations_ (self st') = preferredOutputLocations_ (self st).
Proof.
  intros [Hi Hd]. unfold Dispose, reset_ioBinding_, reset_session_.
  run. rewrite Hi, Hd. simpl.
  destruct (ioBinding_ (self st)); run; destruct (session_ (self st)); run;
    rewrite ?Hi; tauto.
Qed.

Lemma Dispose_consistent info (st : St) :
  consistent (self st) -> consistent (self (snd (Dispose info st))).
Proof.
  intros C. destruct (initialized_ (self st)) eqn:Hi.
  2: { now rewrite Dispose_when_not_initialized. }
  destruct (disposed_ (self st)) eqn:Hd.
  { now rewrite Dispose_when_disposed. }
  pose proof (Dispose_effect info st (conj Hi Hd)) as
    (_ & Ki & Kd & Ks & Kb & K1 & K2 & K3 & K4 & _).
  destruct C as (_ & _ & _ & Ha).
  refine (conj _ (conj _ (conj _ _))).
  - intros _. now rewrite Ki, Ks, Kb.
  - intros I. congruence.
  - intros [_ D]. congruence.
  - unfold aligned in *. now rewrite K1, K2, K3, K4.
Qed.

Lemma call_consistent m (st : St) :
  consistent (self st) -> consistent (self (snd (call E H m st))).
Proof.
  intros C. destruct m as [info | info | info | info | |]; simpl.
  - now apply LoadModel_consistent.
  - pose proof (Run_keeps_self info st) as K. unfold unchanged, id in K. now rewrite K.
  - now apply Dispose_consistent.
  - pose proof (EndProfiling_keeps_self info st) as K. unfold unchanged, id in K.
    now rewrite K.
  - now rewrite GetMetadata_keeps_state.
  - now rewrite GetMetadata_keeps_state.
Qed.

Lemma reachable_consistent (st : St) : reachable E H st -> consistent (self st).
Proof.
  induction 1 as [| st m _ IH].
  - refine (conj _ (conj _ (conj _ _))); simpl.
    + discriminate.
    + reflexivity.
    + intros [? _]. discriminate.
    + split; simpl; lia.
  - now apply call_consistent.
Qed.

(** ** The life cycle *)

Lemma other_member_not_initialized m (st : St) :
  initialized_ (self st) = false -> (forall info, m <> loadModel info) ->
  call E H m st = (Raise (ORT_NAPI_ERROR msg_not_initialized), st).
Proof.
  intros Hi Hm. destruct m as [info | info | info | info | |]; simpl.
  - now destruct (Hm info).
  - now apply Run_when_not_initialized.
  - now apply Dispose_when_not_initialized.
  - now apply EndProfiling_when_not_initialized.
  - now apply GetMetadata_when_not_initialized.
  - now apply GetMetadata_when_not_initialized.
Qed.

Lemma other_member_disposed m (st : St) :
  initialized_ (self st) = true -> disposed_ (self st) = true ->
  (forall info, m <> loadModel info) ->
  call E H m st = (Raise (ORT_NAPI_ERROR msg_disposed), st).
Proof.
  intros Hi Hd Hm. destruct m as [info | info | info | info | |]; simpl.
  - now destruct (Hm info).
  - now apply Run_when_disposed.
  - now apply Dispose_when_disposed.
  - now apply EndProfiling_when_disposed.
  - now apply GetMetadata_when_disposed.
  - now apply GetMetadata_when_disposed.
Qed.

Lemma LoadModel_returns info (st : St) v st' :
  LoadModel E H info st = (Return v, st') ->
  Fresh (self st) /\ Loaded (self st')
  /\ exists st1, load_steps E H info st = (Return tt, st1)
                 /\ st' = mark_initialized st1.
Proof.
  intros HL. destruct (initialized_ (self st)) eqn:Hi.
  { rewrite LoadModel_when_initialized in HL by assumption. discriminate. }
  destruct (disposed_ (self st)) eqn:Hd.
  { unfold LoadModel, bind, this in HL. simpl in HL. rewrite Hi, Hd in HL.
    discriminate. }
  destruct (Nat.eq_dec (length info) 0) as [Hz | Hnz].
  { unfold LoadModel, bind, this in HL. simpl in HL. rewrite Hi, Hd, Hz in HL.
    discriminate. }
  rewrite LoadModel_fresh in HL by (try split; assumption).
  pose proof (load_steps_effect info st) as (Ki & Kd & _ & _).
  destruct (load_steps E H info st) as [[[] | t |] st1]; simpl in *;
    try discriminate.
  injection HL as _ <-. split; [now split |]. split.
  - split; simpl; congruence.
  - now exists st1.
Qed.

(** C6: while no [loadModel] has succeeded, [run], the accessors
    [inputMetadata] and [outputMetadata], [endProfiling] and [dispose] all
    fail with the generic error "Session is not initialized." (the text
    ends with a full stop in the code) and change nothing.  [loadModel]
    is the one member that goes on: given an argument it enters its
    loading steps, and what it does is what they do. *)
Theorem only_loadModel_before_load (st : St) :
  initialized_ (self st) = false ->
  (forall m, (forall info, m <> loadModel info) ->
     call E H m st
     = (Raise (NapiError GenericError "Session is not initialized."), st))
  /\ (disposed_ (self st) = false ->
      forall info, length info <> 0 ->
        LoadModel E H info st =
          match load_steps E H info st with
          | (Return _, st1) => (Return NUndefined, mark_initialized st1)
          | (Raise t, st1) => (Raise (rethrow t), st1)
          | (Undefined, st1) => (Undefined, st1)
          end).
Proof.
  intros Hi. split.
  - intros m Hm. now apply other_member_not_initialized.
  - intros Hd info Hlen. now apply LoadModel_fresh.
Qed.

(** C2: in a state reached after [dispose], [run], the two metadata
    accessors, [endProfiling] and a second [dispose] fail with "Session
    already disposed."; [loadModel] fails too, but its message is "Model
    already loaded. Cannot load model multiple times.": the guard on
    [initialized_] comes first in [LoadModel], and a disposed session is
    an initialized one, so the guard on [disposed_] is never reached. *)
Theorem disposed_loadModel_says_already_loaded (st : St) :
  reachable E H st -> Disposed (self st) ->
  (forall info,
     LoadModel E H info st =
       (Raise (NapiError GenericError
                 "Model already loaded. Cannot load model multiple times."), st))
  /\ (forall m, (forall info, m <> loadModel info) ->
        call E H m st =
          (Raise (NapiError GenericError "Session already disposed."), st)).
Proof.
  intros R D. destruct (reachable_consistent st R) as [C _].
  destruct (C D) as [Hi _]. split.
  - intros info. now apply LoadModel_when_initialized.
  - intros m Hm. now apply other_member_disposed.
Qed.

(** C5: after a [loadModel] that succeeded the session is Loaded, and any
    further [loadModel] fails with a generic error whose message contains
    "already loaded"; the failed call changes nothing, so every member
    called next does what it does on the Loaded session. *)
Theorem second_loadModel_rejected info (st : St) v st' :
  LoadModel E H info st = (Return v, st') ->
  Loaded (self st')
  /\ forall info',
       LoadModel E H info' st' = (Raise (NapiError GenericError msg_already_loaded), st')
       /\ String.index 0 "already loaded" msg_already_loaded = Some 6
       /\ forall m,
            call E H m (snd (LoadModel E H info' st')) = call E H m st'.
Proof.
  intros HL. destruct (LoadModel_returns info st v st' HL) as (_ & L & _).
  split; [exact L |]. intros info'.
  rewrite LoadModel_when_initialized by apply L.
  repeat split.
Qed.

(** C7, as the code has it: whenever the session is Loaded, so after a
    [loadModel] that succeeded and after every [run], the I/O binding is
    present exactly if [preferredOutputLocations_] is not empty.
    [dispose] releases the binding and leaves the table as it is, so
    after it the binding is absent whatever the table holds. *)
Theorem binding_matches_table_while_loaded (st : St) :
  reachable E H st ->
  (Loaded (self st) ->
     (is_Some (ioBinding_ (self st)) <-> preferredOutputLocations_ (self st) <> []))
  /\ (forall info v st',
        LoadModel E H info st = (Return v, st') ->
        (is_Some (ioBinding_ (self st')) <-> preferredOutputLocations_ (self st') <> []))
  /\ (forall info,
        Loaded (self st) ->
        Loaded (self (snd (Run E H info st)))
        /\ (is_Some (ioBinding_ (self (snd (Run E H info st))))
            <-> preferredOutputLocations_ (self (snd (Run E H info st))) <> []))
  /\ (Disposed (self st) -> ioBinding_ (self st) = None)
  /\ (forall info, Loaded (self st) ->
        ioBinding_ (self (snd (Dispose info st))) = None
        /\ preferredOutputLocations_ (self (snd (Dispose info st)))
           = preferredOutputLocations_ (self st)).
Proof.
  intros R. destruct (reachable_consistent st R) as (C1 & _ & C3 & _).
  split; [| split; [| split; [| split]]].
  - intros L. now apply C3.
  - intros info v st' HL.
    destruct (LoadModel_returns info st v st' HL) as (_ & L & _).
    assert (reachable E H st') as R'.
    { replace st' with (snd (call E H (loadModel info) st)) by (simpl; now rewrite HL).
      now constructor. }
    destruct (reachable_consistent st' R') as (_ & _ & C3' & _). now apply C3'.
  - intros info L. pose proof (Run_keeps_self info st) as K.
    unfold unchanged, id in K. rewrite K. split; [exact L | now apply C3].
  - intros D. now apply C1.
  - intros info L.
    pose proof (Dispose_effect info st L) as (_ & _ & _ & _ & Kb & _ & _ & _ & _ & Kp).
    now split.
Qed.

(** C3, as the code has it: a [loadModel] that fails on a Fresh session
    leaves it Fresh and without an I/O binding, and the caller gets the
    error of the failing step, a host error as it is and any other
    exception as a generic host error with the same text.  When the
    arguments are rejected, the options do not parse or the native
    session is not created, the session object is as before.  When a
    later step fails (reading the names and types, parsing the preferred
    output locations, making the binding), the native session that was
    created stays in [session_]. *)
Theorem failed_loadModel_stays_fresh info (st : St) e st' :
  Fresh (self st) ->
  LoadModel E H info st = (Raise e, st') ->
  Fresh (self st')
  /\ ioBinding_ (self st') = ioBinding_ (self st)
  /\ ((length info = 0 /\ e = NapiError TypeError msg_expect_model /\ st' = st)
      \/ (exists t, create_session E H info st = (Raise t, st')
                    /\ e = rethrow t /\ self st' = self st)
      \/ (exists st1 t,
            create_session E H info st = (Return tt, st1)
            /\ bind (cache_names_and_types E)
                 (fun _ => cache_preferred_output_locations E H info) st1
               = (Raise t, st')
            /\ e = rethrow t
            /\ is_Some (session_ (self st')))).
Proof.
  intros F HL. pose proof F as [Hi Hd].
  destruct (Nat.eq_dec (length info) 0) as [Hz | Hnz].
  { unfold LoadModel, bind, this in HL. simpl in HL. rewrite Hi, Hd, Hz in HL.
    simpl in HL. injection HL as <- <-. repeat split; auto. }
  rewrite LoadModel_fresh in HL by assumption.
  pose proof (load_steps_effect info st) as (Ki & Kd & _ & Kc).
  destruct (load_steps E H info st) as [[[] | t |] st1] eqn:HS; simpl in *;
    try discriminate.
  injection HL as <- <-.
  split; [split; congruence |]. split; [exact Kc |]. right.
  unfold load_steps in HS. unfold bind at 1 in HS.
  pose proof (create_session_stores info st) as S1.
  pose proof (cache_names_and_types_outside) as O2.
  pose proof (cache_preferred_output_locations_outside info) as O3.
  destruct (create_session E H info st) as [[[] | t1 |] st0]; simpl in S1;
    try discriminate.
  - right. exists st0, t. split; [reflexivity |]. split; [exact HS |].
    split; [reflexivity |].
    assert (keeps (same session_)
              (bind (cache_names_and_types E)
                 (fun _ => cache_preferred_output_locations E H info))) as K.
    { apply keeps_bind; solve_preorder.
      - intros s0. specialize (O2 s0). unfold unchanged, outside_metadata in *.
        congruence.
      - intros _ s0. specialize (O3 s0). unfold unchanged, outside_locations in *.
        congruence. }
    specialize (K st0). rewrite HS in K. unfold unchanged in K. simpl in K.
    now rewrite K.
  - left. injection HS as <- <-. exists t1. auto.
Qed.

(** ** The metadata *)

Lemma metadata_entries_aligned types : forall names i,
  length types + i <= length names ->
  metadata_entries names types i
  = Some (zip_with metadata_entry (drop i names) types).
Proof.
  induction types as [| t types IH]; intros names i Hlen; simpl.
  - now destruct (drop i names).
  - simpl in Hlen.
    destruct (lookup_lt_is_Some_2 names i ltac:(lia)) as [name Hname].
    rewrite Hname, (IH names (S i)) by lia.
    now rewrite (drop_S _ _ _ Hname).
Qed.

(** The names and types are fixed once the session is Loaded. *)
Lemma call_keeps_metadata m (st : St) :
  Loaded (self st) -> metadata (self (snd (call E H m st))) = metadata (self st).
Proof.
  intros L. destruct m as [info | info | info | info | |]; simpl.
  - rewrite LoadModel_when_initialized by apply L. reflexivity.
  - pose proof (Run_keeps_self info st) as K. unfold unchanged, id in K. now rewrite K.
  - pose proof (Dispose_effect info st L)
      as (_ & _ & _ & _ & _ & K1 & K2 & K3 & K4 & _).
    unfold metadata. now rewrite K1, K2, K3, K4.
  - pose proof (EndProfiling_keeps_self info st) as K. unfold unchanged, id in K.
    now rewrite K.
  - now rewrite GetMetadata_keeps_state.
  - now rewrite GetMetadata_keeps_state.
Qed.

Lemma GetMetadata_loaded is_input (st : St) :
  reachable E H st -> Loaded (self st) ->
  GetMetadata is_input st
  = (Return (napi_array
               (zip_with metadata_entry
                  (if is_input then inputNames_ (self st) else outputNames_ (self st))
                  (if is_input then inputTypes_ (self st) else outputTypes_ (self st)))),
     st).
Proof.
  intros R [Hi Hd]. destruct (reachable_consistent st R) as (_ & _ & _ & [Ai Ao]).
  unfold GetMetadata, bind, this. simpl. rewrite Hi, Hd. simpl.
  rewrite metadata_entries_aligned by (destruct is_input; lia).
  reflexivity.
Qed.

(** C9: on a Loaded session [GetMetadata] makes no call to the engine and
    leaves the session as it is; it returns the array of the records made
    from the names and types cached by [loadModel], so a second call
    returns the same array, and so does a call after any other member, as
    long as the session is Loaded. *)
Theorem GetMetadata_is_pure is_input (st : St) :
  reachable E H st -> Loaded (self st) ->
  GetMetadata is_input st
  = (Return (napi_array
               (zip_with metadata_entry
                  (if is_input then inputNames_ (self st) else outputNames_ (self st))
                  (if is_input then inputTypes_ (self st) else outputTypes_ (self st)))),
     st)
  /\ GetMetadata is_input (snd (GetMetadata is_input st)) = GetMetadata is_input st
  /\ forall m,
       Loaded (self (snd (call E H m st))) ->
       fst (GetMetadata is_input (snd (call E H m st)))
       = fst (GetMetadata is_input st).
Proof.
  intros R L. split; [now apply GetMetadata_loaded |]. split.
  - now rewrite GetMetadata_keeps_state.
  - intros m L'. pose proof (call_keeps_metadata m st L) as K.
    rewrite (GetMetadata_loaded is_input (snd (call E H m st)))
      by (assumption || now constructor).
    rewrite (GetMetadata_loaded is_input st) by assumption.
    unfold metadata in K. injection K as -> -> -> ->. reflexivity.
Qed.

(** ** The arguments of LoadModel *)

Lemma cache_inputs_grows todo i : keeps grows (cache_inputs E todo i).
Proof.
  revert i. induction todo as [| todo IH]; intros i; simpl; keeps_auto. apply IH.
Qed.

Lemma cache_outputs_grows todo i : keeps grows (cache_outputs E todo i).
Proof.
  revert i. induction todo as [| todo IH]; intros i; simpl; keeps_auto. apply IH.
Qed.

Lemma after_create_session_grows info :
  keeps grows
    (bind (cache_names_and_types E)
       (fun _ => cache_preferred_output_locations E H info)).
Proof.
  unfold cache_names_and_types, cache_preferred_output_locations, reset_ioBinding_.
  apply keeps_bind; solve_preorder.
  - keeps_auto; [apply cache_inputs_grows | apply cache_outputs_grows].
  - intros _. apply keeps_bind; solve_preorder; [keeps_auto |]. intros w.
    destruct (ParsePreferredOutputLocations _ _ _ _) as [locations thrown].
    keeps_auto.
Qed.

Lemma create_session_accepted info options request so (st : St) :
  accepted_arguments info options request ->
  ParseSessionOptions H options (new_SessionOptions H) = inr so ->
  exists new,
    history (snd (create_session E H info st)) = history st ++ request so :: new.
Proof.
  intros A P. destruct A as [modelPath options Ho | buffer props off len options Ho];
    unfold create_session, reset_session_, arg; simpl; rewrite Ho; simpl.
  - run. rewrite P. run.
    destruct (answer_session _ _ _); run; [exists []; reflexivity |].
    destruct (session_ (self st)); run;
      [rewrite <- app_assoc; simpl; eauto | now exists []].
  - run. rewrite P. run.
    destruct (answer_session _ _ _); run; [exists []; reflexivity |].
    destruct (session_ (self st)); run;
      [rewrite <- app_assoc; simpl; eauto | now exists []].
Qed.

Lemma create_session_rejected info (st : St) :
  (forall options (request : Request), ~ accepted_arguments info options request) ->
  create_session E H info st = (Raise (ORT_NAPI_TYPEERROR msg_invalid_args), st).
Proof.
  intros N. unfold create_session.
  destruct (_ && _ && _) eqn:T1.
  { exfalso. apply andb_prop in T1 as [T1 To]. apply andb_prop in T1 as [Tl Ts].
    destruct info as [| a [| b [| c info]]]; try discriminate.
    unfold arg in *. simpl in *. destruct a; try discriminate.
    apply (N b (NewSessionFromPath s)). now constructor. }
  destruct (_ && _ && _ && _ && _) eqn:T2; [| reflexivity].
  exfalso. apply andb_prop in T2 as [T2 To]. apply andb_prop in T2 as [T2 Tc].
  apply andb_prop in T2 as [T2 Tb]. apply andb_prop in T2 as [Tl Ta].
  destruct info as [| a [| b [| c [| d [| e info]]]]]; try discriminate.
  unfold arg in *. simpl in *.
  destruct a; try discriminate. destruct b; try discriminate.
  destruct c; try discriminate.
  apply (N d (NewSessionFromBuffer data n n0)). now constructor.
Qed.

(** C8: on a Fresh session [loadModel] takes the list (path text,
    options object) and the list (ArrayBuffer, number, number, options
    object): for these it parses the options and, when they parse, asks
    the engine for the native session from the path or from the buffer
    range.  For every other list of arguments it fails with a type error
    and does nothing else. *)
Theorem loadModel_takes_two_argument_lists info (st : St) :
  Fresh (self st) ->
  (forall options (request : Request),
     accepted_arguments info options request ->
     match ParseSessionOptions H options (new_SessionOptions H) with
     | inl t => LoadModel E H info st = (Raise (rethrow t), st)
     | inr so =>
         exists new,
           history (snd (LoadModel E H info st)) = history st ++ request so :: new
     end)
  /\ ((forall options (request : Request), ~ accepted_arguments info options request) ->
      exists message,
        LoadModel E H info st = (Raise (NapiError TypeError message), st)).
Proof.
  intros F. split.
  - intros options request A.
    assert (length info <> 0) as Hnz by (destruct A; discriminate).
    rewrite LoadModel_fresh by assumption.
    destruct (ParseSessionOptions H options (new_SessionOptions H)) as [t | so] eqn:P.
    + assert (create_session E H info st = (Raise t, st)) as C.
      { destruct A as [? ? Ho | ? ? ? ? ? Ho];
          unfold create_session, arg; simpl; rewrite Ho; simpl; run; now rewrite P. }
      unfold load_steps, bind. now rewrite C.
    + destruct (create_session_accepted info options request so st A P) as [n1 H1].
      unfold load_steps. unfold bind at 1.
      pose proof (after_create_session_grows info) as G.
      destruct (create_session E H info st) as [[[] | t |] st1]; simpl in H1.
      * destruct (G st1) as [n2 H2].
        destruct (bind _ _ st1) as [[[] | t |] st2]; simpl in *;
          exists (n1 ++ n2); rewrite H2, H1, <- app_assoc; reflexivity.
      * now exists n1.
      * now exists n1.
  - intros N. destruct F as [Hi Hd].
    destruct (Nat.eq_dec (length info) 0) as [Hz | Hnz].
    { exists msg_expect_model. unfold LoadModel, bind, this. simpl.
      now rewrite Hi, Hd, Hz. }
    exists msg_invalid_args. rewrite LoadModel_fresh by (try split; assumption).
    unfold load_steps, bind. now rewrite create_session_rejected.
Qed.

(** ** What Run reads from its records *)

Lemma marshal_feed_names feed names ins :
  marshal_feed H feed names = inr ins ->
  map fst ins = List.filter (Has feed) names.
Proof.
  revert ins. induction names as [| name names IH]; intros ins; simpl.
  - now intros [= <-].
  - destruct (Has feed name); [| apply IH].
    destruct (NapiValueToOrtValue _ _ _ _); [discriminate |].
    destruct (marshal_feed H feed names); [discriminate |].
    intros [= <-]. simpl. f_equal. now apply IH.
Qed.

Lemma marshal_fetch_names fetch names outs :
  marshal_fetch H fetch names = inr outs ->
  map fst outs = List.filter (Has fetch) names.
Proof.
  revert outs. induction names as [| name names IH]; intros outs; simpl.
  - now intros [= <-].
  - destruct (Has fetch name); [| apply IH].
    destruct (if IsNull _ then _ else _); [discriminate |].
    destruct (marshal_fetch H fetch names); [discriminate |].
    intros [= <-]. simpl. f_equal. now apply IH.
Qed.

Lemma marshal_feed_values feed names ins :
  marshal_feed H feed names = inr ins ->
  forall name v, In (name, v) ins ->
    NapiValueToOrtValue H (Get feed name) cpuMemoryInfo gpuBufferMemoryInfo = inr v.
Proof.
  revert ins. induction names as [| name names IH]; intros ins; simpl.
  - intros [= <-] n v [].
  - destruct (Has feed name); [| apply IH].
    destruct (NapiValueToOrtValue _ _ _ _) eqn:C; [discriminate |].
    destruct (marshal_feed H feed names); [discriminate |].
    intros [= <-] n v [[= <- <-] | Hin]; [exact C | now apply (IH l)].
Qed.

(** Only the entries under the names asked for are read. *)
Lemma marshal_feed_same_entries names feed feed' :
  (forall name, In name names ->
     find_property (properties feed) name = find_property (properties feed') name) ->
  marshal_feed H feed names = marshal_feed H feed' names.
Proof.
  induction names as [| name names IH]; intros S; simpl; [reflexivity |].
  unfold Has, Get. rewrite (S name) by now left.
  rewrite IH by (intros n Hn; apply S; now right). reflexivity.
Qed.

Lemma marshal_fetch_same_entries names fetch fetch' :
  (forall name, In name names ->
     find_property (properties fetch) name = find_property (properties fetch') name) ->
  marshal_fetch H fetch names = marshal_fetch H fetch' names.
Proof.
  induction names as [| name names IH]; intros S; simpl; [reflexivity |].
  unfold Has, Get. rewrite (S name) by now left.
  rewrite IH by (intros n Hn; apply S; now right). reflexivity.
Qed.

(** [Run] reads its two records under the declared names only. *)
Lemma Run_same_entries feed fetch feed' fetch' rest (st : St) :
  same_entries (inputNames_ (self st)) feed feed' ->
  same_entries (outputNames_ (self st)) fetch fetch' ->
  Run E H (feed :: fetch :: rest) st = Run E H (feed' :: fetch' :: rest) st.
Proof.
  intros [Of Sf] [Og Sg]. unfold Run, bind at 1 2, this, arg. simpl.
  rewrite Of, Og. unfold run_steps, arg. simpl.
  rewrite (marshal_feed_same_entries _ feed feed' Sf).
  rewrite (marshal_fetch_same_entries _ fetch fetch' Sg).
  reflexivity.
Qed.

Lemma find_property_keep_declared names ps name :
  In name names ->
  find_property (keep_declared names ps) name = find_property ps name.
Proof.
  intros Hin. induction ps as [| [k v] ps IH]; simpl; [reflexivity |].
  destruct (existsb (String.eqb k) names) eqn:Ex; simpl.
  - now rewrite IH.
  - destruct (String.eqb_spec k name) as [-> | _]; [| exact IH].
    exfalso. apply Bool.not_true_iff_false in Ex. apply Ex.
    apply existsb_exists. exists name. split; [exact Hin | apply String.eqb_refl].
Qed.

Lemma same_entries_only_declared names v :
  same_entries names v (only_declared names v).
Proof.
  split.
  - now destruct v.
  - intros name Hin.
    destruct v; simpl; try reflexivity;
      symmetry; now apply find_property_keep_declared.
Qed.


(** ** What Run hands to the engine *)

#[local] Instance quiet_preorder : PreOrder quiet.
Proof.
  split.
  - intros st. exists []. now rewrite app_nil_r.
  - intros a b c (n1 & H1 & I1 & O1) (n2 & H2 & I2 & O2). exists (n1 ++ n2).
    rewrite H2, H1, app_assoc, !flat_map_app, I1, I2, O1, O2. auto.
Qed.

Lemma keeps_invoke_quiet {A} answer c :
  passed_inputs c = [] -> passed_outputs c = [] ->
  keeps quiet (@invoke _ _ _ _ _ A answer c).
Proof.
  intros Hi Ho st. exists [c]. unfold invoke. simpl. rewrite Hi, Ho.
  now destruct (answer (history st) c).
Qed.

Ltac keeps_quiet :=
  repeat first [ keeps_step | apply keeps_invoke_quiet; reflexivity ].

Ltac nothing_new :=
  exists []; rewrite app_nil_r; simpl;
  repeat split; intros; auto using prefix_nil; try discriminate;
  try contradiction.

Lemma bind_inputs_passes ins : forall st : St,
  exists new,
    history (snd (bind_inputs E ins st)) = history st ++ new
    /\ flat_map passed_inputs new `prefix_of` ins
    /\ flat_map passed_outputs new = []
    /\ existsb engine_run new = false
    /\ (fst (bind_inputs E ins st) = Return tt -> flat_map passed_inputs new = ins).
Proof.
  induction ins as [| [name value] ins IH]; intros st; simpl.
  - nothing_new.
  - run. destruct (ioBinding_ (self st)) as [b |]; run.
    2: { nothing_new. }
    destruct (answer_status _ _ _); run.
    + exists [BindInput b name value]. repeat split; auto; try discriminate.
      simpl. apply prefix_cons, prefix_nil.
    + match goal with |- context [bind_inputs E ins ?s] =>
        destruct (IH s) as (new & Hh & Hp & Ho & He & Hr) end.
      exists (BindInput b name value :: new). simpl in Hh.
      rewrite Hh, <- app_assoc. simpl. repeat split; auto.
      * now apply prefix_cons.
      * intros R. now rewrite Hr.
Qed.

Lemma bind_outputs_passes names : forall i (st : St),
  exists new,
    history (snd (bind_outputs E names i st)) = history st ++ new
    /\ flat_map passed_inputs new = []
    /\ flat_map passed_outputs new `prefix_of` names
    /\ existsb engine_run new = false
    /\ (fst (bind_outputs E names i st) = Return tt ->
        flat_map passed_outputs new = names).
Proof.
  induction names as [| name names IH]; intros i st; simpl.
  - nothing_new.
  - run. destruct (preferredOutputLocations_ (self st) !! i) as [location |]; run.
    2: { nothing_new. }
    destruct (ioBinding_ (self st)) as [b |]; run.
    2: { nothing_new. }
    destruct (answer_status _ _ _); run.
    + eexists [_]. repeat split; auto; try discriminate.
      simpl. apply prefix_cons, prefix_nil.
    + match goal with |- context [bind_outputs E names (S i) ?s] =>
        destruct (IH (S i) s) as (new & Hh & Hp & Ho & He & Hr) end.
      eexists (_ :: new). simpl in Hh.
      rewrite Hh, <- app_assoc. simpl. repeat split; auto.
      * now apply prefix_cons.
      * intros R. now rewrite Hr.
Qed.

Lemma prefix_map {A B} (f : A -> B) (l1 l2 : list A) :
  l1 `prefix_of` l2 -> map f l1 `prefix_of` map f l2.
Proof. intros [k ->]. exists (map f k). apply map_app. Qed.

Lemma prefix_In {A} (l1 l2 : list A) x : l1 `prefix_of` l2 -> In x l1 -> In x l2.
Proof. intros [k ->] Hin. apply in_or_app. now left. Qed.

Lemma hands_over_nothing {A} ins outs (st : St) (c : Completion A) :
  (forall r, c <> Return r) -> hands_over ins outs st (c, st).
Proof.
  intros N. exists []. simpl. rewrite app_nil_r.
  split; [reflexivity |]. split; [apply prefix_nil |]. split; [apply prefix_nil |].
  split; [intros r Hr; now destruct (N r) | discriminate].
Qed.

(** A piece that stopped in the binding loops has handed over some
    first entries and has not made the engine compute. *)
Lemma hands_over_some {A} ins outs (st st' : St) (c : Completion A) new :
  (forall r, c <> Return r) ->
  history st' = history st ++ new ->
  flat_map passed_inputs new `prefix_of` ins ->
  flat_map passed_outputs new `prefix_of` outs ->
  existsb engine_run new = false ->
  hands_over ins outs st (c, st').
Proof.
  intros N Hh Pi Po He. exists new. simpl.
  split; [exact Hh |]. split; [exact Pi |]. split; [exact Po |].
  split; [intros r Hr; now destruct (N r) |].
  rewrite He. discriminate.
Qed.

Lemma run_direct_hands_over options ins outs (st : St) :
  hands_over ins (map fst outs) st (run_direct E H (self st) options ins outs st).
Proof.
  unfold run_direct. run.
  destruct (session_ (self st)) as [s |]; run;
    [| now apply hands_over_nothing].
  assert (forall c st',
            history st' = history st ++ [SessionRun s options ins outs] ->
            hands_over ins (map fst outs) st (c : Completion NapiValue, st')) as Done.
  { intros c st' Hh. exists [SessionRun s options ins outs]. simpl.
    rewrite !app_nil_r. repeat split; auto. }
  destruct (answer_values _ _ _); run; [now apply Done |].
  destruct (wrap_outputs _ _ _ _ _ _); now apply Done.
Qed.

Lemma run_io_binding_hands_over options ins outs (st : St) :
  hands_over ins (map fst outs) st (run_io_binding E H (self st) options ins outs st).
Proof.
  unfold run_io_binding.
  destruct (negb _); [now apply hands_over_nothing |].
  unfold bind at 1.
  destruct (bind_inputs_passes ins st) as (new1 & H1 & P1 & O1 & E1 & R1).
  destruct (bind_inputs E ins st) as [[[] | t |] st1]; simpl in H1, R1;
    [| apply (hands_over_some _ _ _ _ _ new1);
       [discriminate | exact H1 | exact P1 | rewrite O1; apply prefix_nil
       | exact E1] ..].
  specialize (R1 eq_refl). unfold bind at 1.
  destruct (bind_outputs_passes (map fst outs) 0 st1)
    as (new2 & H2 & I2 & P2 & E2 & R2).
  destruct (bind_outputs E (map fst outs) 0 st1) as [[[] | t |] st2];
    simpl in H2, R2;
    [| apply (hands_over_some _ _ _ _ _ (new1 ++ new2));
       [ discriminate
       | rewrite H2, H1, <- app_assoc; reflexivity
       | rewrite flat_map_app, R1, I2, app_nil_r; reflexivity
       | rewrite flat_map_app, O1; exact P2
       | rewrite existsb_app, E1, E2; reflexivity ] ..].
  specialize (R2 eq_refl).
  assert (forall c st' extra,
            history st' = history st2 ++ extra ->
            flat_map passed_inputs extra = [] ->
            flat_map passed_outputs extra = [] ->
            (forall r, c = Return r -> existsb engine_run extra = true) ->
            hands_over ins (map fst outs) st (c : Completion NapiValue, st')) as Done.
  { intros c st' extra Hh Hi Ho Hr. exists (new1 ++ new2 ++ extra). simpl.
    rewrite Hh, H2, H1, <- !app_assoc, !flat_map_app, R1, R2, I2, O1, Hi, Ho.
    simpl. rewrite !app_nil_r. repeat split; auto.
    intros r Hc. rewrite !existsb_app, (Hr r Hc). now rewrite !orb_true_r. }
  assert (hands_over ins (map fst outs) st
            (Undefined : Completion NapiValue, st2)) as Done0.
  { apply (Done _ st2 []); auto; [now rewrite app_nil_r | discriminate]. }
  run. destruct (session_ (self st)) as [s |]; run; [| apply Done0].
  destruct (ioBinding_ (self st)) as [b |]; run; [| apply Done0].
  destruct (answer_status _ _ _); run;
    [eapply Done; [reflexivity | reflexivity | reflexivity | discriminate] |].
  destruct (answer_values _ _ _); run;
    [rewrite <- app_assoc;
     eapply Done; [reflexivity | reflexivity | reflexivity | discriminate] |].
  destruct (negb _); run;
    [rewrite <- app_assoc;
     eapply Done; [reflexivity | reflexivity | reflexivity | discriminate] |].
  destruct (wrap_outputs _ _ _ _ _ _); run;
    rewrite <- app_assoc;
    (eapply Done; [reflexivity | reflexivity | reflexivity
                  | intros; (reflexivity || discriminate)]).
Qed.

Lemma supplies_nothing {A} info (st : St) (c : Completion A) :
  (forall r, c <> Return r) -> supplies H info st (c, st).
Proof.
  intros N. exists []. simpl. rewrite app_nil_r.
  split; [reflexivity |]. split; [apply prefix_nil |]. split; [apply prefix_nil |].
  split; [intros name v [] |].
  split; [intros r Hr; now destruct (N r) | discriminate].
Qed.

Lemma hands_over_supplies {A} info (st : St) ins outs (out : Completion A * St) :
  marshal_feed H (arg info 0) (inputNames_ (self st)) = inr ins ->
  marshal_fetch H (arg info 1) (outputNames_ (self st)) = inr outs ->
  hands_over ins (map fst outs) st out -> supplies H info st out.
Proof.
  intros MF MG (new & Hh & Pi & Po & R & X). exists new.
  rewrite <- (marshal_feed_names _ _ _ MF), <- (marshal_fetch_names _ _ _ MG).
  split; [exact Hh |]. split; [now apply prefix_map |]. split; [exact Po |].
  split; [| split; [exact R |]].
  - intros name v Hin. apply (marshal_feed_values _ _ _ MF).
    now apply (prefix_In _ _ _ Pi).
  - intros Hx. destruct (X Hx) as [-> ->]. now split.
Qed.

Lemma run_steps_supplies info (st : St) :
  supplies H info st (run_steps E H info (self st) st).
Proof.
  unfold run_steps.
  destruct (marshal_feed H _ _) as [t | ins] eqn:MF;
    [now apply supplies_nothing |].
  destruct (marshal_fetch H _ _) as [t | outs] eqn:MG;
    [now apply supplies_nothing |].
  unfold bind at 1 2, lift at 1 2, ret at 1 2. unfold bind at 1.
  assert (forall options,
            supplies H info st
              ((if Nat.eqb (length (preferredOutputLocations_ (self st))) 0
                then run_direct E H (self st) options ins outs
                else run_io_binding E H (self st) options ins outs) st)) as Paths.
  { intros options. apply (hands_over_supplies info st ins outs); try assumption.
    destruct (Nat.eqb _ 0);
      [apply run_direct_hands_over | apply run_io_binding_hands_over]. }
  destruct (Nat.ltb 2 (length info)); run; [| apply Paths].
  destruct (ParseRunOptions _ _ _); run; [| apply Paths].
  apply supplies_nothing. discriminate.
Qed.

Lemma Run_supplies info (st : St) : supplies H info st (Run E H info st).
Proof.
  unfold Run, bind, this. simpl.
  destruct (negb _); [now apply supplies_nothing |].
  destruct (disposed_ _); [now apply supplies_nothing |].
  destruct (Nat.ltb _ 2); [now apply supplies_nothing |].
  destruct (_ || _); [now apply supplies_nothing |].
  destruct (_ && _); [now apply supplies_nothing |].
  destruct (create_memory_infos_cases st) as [[_ ->] | (t & _ & -> & _)];
    [| now apply supplies_nothing].
  unfold try_catch.
  destruct (run_steps_supplies info st) as (new & Hh & Pi & Po & V & R & X).
  destruct (run_steps E H info (self st) st) as [[r | t |] st']; simpl in *;
    exists new; (split; [exact Hh |]); (split; [exact Pi |]);
    (split; [exact Po |]); (split; [exact V |]); (split; [| exact X]);
    intros r' Hr'; first [discriminate | now apply (R r')].
Qed.



(** ** The keys of the result record *)

Lemma bind_returns {A B} (m : Action A) (k : A -> Action B) (st : St) r :
  fst (bind m k st) = Return r ->
  exists a st1, m st = (Return a, st1) /\ fst (k a st1) = Return r.
Proof.
  unfold bind. destruct (m st) as [[a | t |] st1]; simpl; try discriminate.
  intros Hr. now exists a, st1.
Qed.

Lemma set_property_keys ps name value k :
  In k (map fst (set_property ps name value)) -> In k (map fst ps) \/ k = name.
Proof.
  induction ps as [| [k' v'] ps IH]; simpl.
  - intros [<- | []]. now right.
  - destruct (String.eqb k' name); simpl; [tauto |].
    intros [<- | Hin]; [tauto |]. destruct (IH Hin); tauto.
Qed.

Lemma wrap_outputs_keys names values todo : forall i result r,
  wrap_outputs H names values todo i result = Return r ->
  forall k, In k (map fst r) -> In k (map fst result) \/ In k names.
Proof.
  induction todo as [| todo IH]; intros i result r; simpl.
  - intros [= <-] k Hin. now left.
  - destruct (names !! i) as [name |] eqn:Hn; [| discriminate].
    destruct (values !! i); [| discriminate].
    destruct (OrtValueToNapiValue H _); [discriminate |].
    intros Hw k Hin. destruct (IH _ _ _ Hw k Hin) as [Hk | Hk]; [| now right].
    destruct (set_property_keys _ _ _ _ Hk) as [Hk' | ->]; [now left | right].
    apply list_elem_of_In. eapply list_elem_of_lookup_2. exact Hn.
Qed.

Lemma wrapped_result_keys (w : Wrap) values todo (st : St) r :
  fst (bind (complete (wrap_outputs H (outputNames_ w) values todo 0 []))
         (fun result => ret (NObject result)) st) = Return r ->
  keyed_by_declared w r.
Proof.
  intros Hr. apply bind_returns in Hr as (props & st1 & Hw & Hr).
  unfold complete in Hw. injection Hw as Hw _. injection Hr as <-.
  exists props. split; [reflexivity |]. intros k Hin.
  destruct (wrap_outputs_keys _ _ _ _ _ _ Hw k Hin) as [[] | Hk]. exact Hk.
Qed.

Lemma run_steps_result_keys info (w : Wrap) (st : St) r :
  fst (run_steps E H info w st) = Return r -> keyed_by_declared w r.
Proof.
  unfold run_steps. intros Hr.
  apply bind_returns in Hr as (ins & st1 & _ & Hr).
  apply bind_returns in Hr as (outs & st2 & _ & Hr).
  apply bind_returns in Hr as (options & st3 & _ & Hr).
  destruct (Nat.eqb _ 0).
  - unfold run_direct in Hr.
    apply bind_returns in Hr as (s & st4 & _ & Hr).
    apply bind_returns in Hr as (written & st5 & _ & Hr).
    now apply wrapped_result_keys in Hr.
  - unfold run_io_binding in Hr. destruct (negb _); [discriminate |].
    apply bind_returns in Hr as (? & st4 & _ & Hr).
    apply bind_returns in Hr as (? & st5 & _ & Hr).
    apply bind_returns in Hr as (s & st6 & _ & Hr).
    apply bind_returns in Hr as (b & st7 & _ & Hr).
    apply bind_returns in Hr as (? & st8 & _ & Hr).
    apply bind_returns in Hr as (outs' & st9 & _ & Hr).
    destruct (negb _); [discriminate |].
    now apply wrapped_result_keys in Hr.
Qed.

Lemma Run_result_keys info (st : St) r :
  fst (Run E H info st) = Return r -> keyed_by_declared (self st) r.
Proof.
  unfold Run, bind, this. simpl.
  destruct (negb _); [discriminate |].
  destruct (disposed_ _); [discriminate |].
  destruct (Nat.ltb _ 2); [discriminate |].
  destruct (_ || _); [discriminate |].
  destruct (_ && _); [discriminate |].
  destruct (create_memory_infos_cases st) as [[_ ->] | (t & _ & -> & _)];
    [| discriminate].
  unfold try_catch. intros Hr. apply (run_steps_result_keys info (self st) st).
  destruct (run_steps E H info (self st) st) as [[r' | t |] st']; simpl in *;
    (discriminate || assumption).
Qed.

(** C10: entries of [feed] and of [fetch] under names that are not
    declared change nothing: the call does what it does on the two
    records without them, so they raise no error and reach no call to
    the engine; every input and output handed to the engine has a
    declared name, and the keys of a result record are declared output
    names. *)
Theorem run_ignores_undeclared_entries feed fetch rest (st : St) :
  Loaded (self st) ->
  Run E H (feed :: fetch :: rest) st
  = Run E H (only_declared (inputNames_ (self st)) feed
             :: only_declared (outputNames_ (self st)) fetch :: rest) st
  /\ (exists new,
        history (snd (Run E H (feed :: fetch :: rest) st)) = history st ++ new
        /\ (forall name v, In (name, v) (flat_map passed_inputs new) ->
              In name (inputNames_ (self st)))
        /\ (forall name, In name (flat_map passed_outputs new) ->
              In name (outputNames_ (self st))))
  /\ (forall r,
        fst (Run E H (feed :: fetch :: rest) st) = Return r ->
        exists props,
          r = NObject props
          /\ forall k, In k (map fst props) -> In k (outputNames_ (self st))).
Proof.
  intros _. split; [| split].
  - apply Run_same_entries; apply same_entries_only_declared.
  - destruct (Run_supplies (feed :: fetch :: rest) st) as (new & Hh & Pi & Po & _).
    exists new. split; [exact Hh |]. split.
    + intros name v Hin. apply (in_map fst) in Hin. simpl in Hin.
      apply (prefix_In _ _ _ Pi) in Hin. now apply filter_In in Hin.
    + intros name Hin. apply (prefix_In _ _ _ Po) in Hin.
      now apply filter_In in Hin.
  - intros r Hr. now apply Run_result_keys in Hr.
Qed.

(** ** No undefined behaviour on the way *)

Lemma defined_bind {A B} (m : Action A) (k : A -> Action B) (st : St) :
  defined m st ->
  (forall a st1, m st = (Return a, st1) -> defined (k a) st1) ->
  defined (bind m k) st.
Proof.
  unfold defined, bind. intros Dm Dk.
  destruct (m st) as [[a | t |] st1]; simpl in *;
    [now apply Dk | discriminate | contradiction].
Qed.

Lemma bind_inputs_defined ins : forall st : St,
  is_Some (ioBinding_ (self st)) -> defined (bind_inputs E ins) st.
Proof.
  induction ins as [| [name value] ins IH]; intros st [b Hb]; simpl;
    [discriminate |].
  unfold defined. run. rewrite Hb. run.
  destruct (answer_status _ _ _); run; [discriminate |].
  apply IH. simpl. eauto.
Qed.

Lemma bind_outputs_defined names : forall i (st : St),
  is_Some (ioBinding_ (self st)) ->
  i + length names <= length (preferredOutputLocations_ (self st)) ->
  defined (bind_outputs E names i) st.
Proof.
  induction names as [| name names IH]; intros i st [b Hb] Hlen; simpl;
    [discriminate |].
  simpl in Hlen. unfold defined. run.
  destruct (lookup_lt_is_Some_2 (preferredOutputLocations_ (self st)) i ltac:(lia))
    as [location Hl].
  rewrite Hl. run. rewrite Hb. run.
  destruct (answer_status _ _ _); run; [discriminate |].
  apply IH; simpl; [eauto | lia].
Qed.

Lemma wrap_outputs_defined names (values : list OrtValue) todo : forall i result,
  i + todo <= length names -> i + todo <= length values ->
  wrap_outputs H names values todo i result <> Undefined.
Proof.
  induction todo as [| todo IH]; intros i result Hn Hv; simpl; [discriminate |].
  destruct (lookup_lt_is_Some_2 names i ltac:(lia)) as [name ->].
  destruct (lookup_lt_is_Some_2 values i ltac:(lia)) as [v ->].
  destruct (OrtValueToNapiValue H v); [discriminate |].
  apply IH; lia.
Qed.

Lemma run_direct_defined (w : Wrap) options ins outs (st : St) :
  is_Some (session_ w) -> length outs <= length (outputNames_ w) ->
  defined (run_direct E H w options ins outs) st.
Proof.
  intros [s Hs] Hlen. unfold run_direct, defined. rewrite Hs. run.
  destruct (answer_values _ _ _) as [t | written]; run; [discriminate |].
  pose proof (wrap_outputs_defined (outputNames_ w)
                (written_back (map snd outs) written) (length outs) 0 []) as W.
  destruct (wrap_outputs _ _ _ _ _ _); run; try discriminate.
  exfalso. apply W; [exact Hlen | | reflexivity].
  unfold written_back. now rewrite length_imap, length_map.
Qed.

Lemma run_io_binding_defined options ins outs (st : St) :
  is_Some (session_ (self st)) -> is_Some (ioBinding_ (self st)) ->
  length outs <= length (outputNames_ (self st)) ->
  defined (run_io_binding E H (self st) options ins outs) st.
Proof.
  intros [s Hs] [b Hb] Hlen. unfold run_io_binding.
  destruct (Nat.eqb_spec (length (preferredOutputLocations_ (self st)))
              (length (outputNames_ (self st)))) as [Hp | _]; simpl;
    [| discriminate].
  apply defined_bind; [apply bind_inputs_defined; eauto |].
  intros [] st1 H1. pose proof (bind_inputs_keeps_self ins st) as K1.
  rewrite H1 in K1. unfold unchanged, id in K1. simpl in K1.
  apply defined_bind.
  { apply bind_outputs_defined; rewrite K1; [eauto |].
    rewrite length_map. simpl. lia. }
  intros [] st2 H2. rewrite Hs, Hb. unfold defined. run.
  destruct (answer_status _ _ _); run; [discriminate |].
  destruct (answer_values _ _ _) as [t | outs']; run; [discriminate |].
  destruct (Nat.eqb_spec (length outs') (length outs)) as [Ho | _]; simpl;
    [| discriminate].
  pose proof (wrap_outputs_defined (outputNames_ (self st)) outs'
                (length outs) 0 []) as W.
  destruct (wrap_outputs _ _ _ _ _ _); run; try discriminate.
  exfalso. apply W; [simpl; lia | simpl; lia | reflexivity].
Qed.

Lemma Run_defined info (st : St) : consistent (self st) -> defined (Run E H info) st.
Proof.
  intros (_ & _ & C3 & _). unfold Run, defined, bind at 1, this. simpl.
  destruct (initialized_ (self st)) eqn:Hi; simpl; [| discriminate].
  destruct (disposed_ (self st)) eqn:Hd; [discriminate |].
  destruct (Nat.ltb _ 2); [discriminate |].
  destruct (_ || _); [discriminate |].
  destruct (_ && _); [discriminate |].
  destruct (C3 (conj Hi Hd)) as [Hs Hb].
  destruct (create_memory_infos_cases st) as [[C _] | (t & _ & C & _)];
    [rewrite with_memory_infos by exact C
    | rewrite (without_memory_infos _ _ t C); discriminate].
  assert (defined (run_steps E H info (self st)) st) as D.
  2: { unfold defined, try_catch in *.
       destruct (run_steps E H info (self st) st) as [[r | t |] st'];
         simpl in *; (discriminate || contradiction). }
  unfold run_steps.
  destruct (marshal_feed H _ _) as [t | ins]; [discriminate |].
  destruct (marshal_fetch H _ _) as [t | outs] eqn:MG; [discriminate |].
  assert (length outs <= length (outputNames_ (self st))) as Hlen.
  { rewrite <- (length_map fst outs), (marshal_fetch_names _ _ _ MG).
    apply filter_length_le. }
  unfold bind at 1 2, lift at 1 2, ret at 1 2. unfold bind at 1.
  assert (forall options,
            defined (if Nat.eqb (length (preferredOutputLocations_ (self st))) 0
                     then run_direct E H (self st) options ins outs
                     else run_io_binding E H (self st) options ins outs) st) as Paths.
  { intros options.
    destruct (Nat.eqb_spec (length (preferredOutputLocations_ (self st))) 0)
      as [Hz | Hnz].
    - now apply run_direct_defined.
    - apply run_io_binding_defined; try assumption.
      apply Hb. intros Hnil. now rewrite Hnil in Hnz. }
  destruct (Nat.ltb 2 (length info)); run; [| apply Paths].
  destruct (ParseRunOptions _ _ _); run; [discriminate | apply Paths].
Qed.

Lemma cache_inputs_defined todo : forall i (st : St),
  is_Some (session_ (self st)) -> defined (cache_inputs E todo i) st.
Proof.
  induction todo as [| todo IH]; intros i st [s Hs]; simpl; [discriminate |].
  unfold defined. run. rewrite Hs. run.
  destruct (answer_name _ _ _); run; [discriminate |].
  destruct (answer_type _ _ _); run; [discriminate |].
  apply IH. simpl. eauto.
Qed.

Lemma cache_outputs_defined todo : forall i (st : St),
  is_Some (session_ (self st)) -> defined (cache_outputs E todo i) st.
Proof.
  induction todo as [| todo IH]; intros i st [s Hs]; simpl; [discriminate |].
  unfold defined. run. rewrite Hs. run.
  destruct (answer_name _ _ _); run; [discriminate |].
  destruct (answer_type _ _ _); run; [discriminate |].
  apply IH. simpl. eauto.
Qed.

Lemma create_session_defined info (st : St) :
  defined (create_session E H info) st.
Proof.
  unfold defined, create_session, reset_session_.
  destruct (_ && _ && _).
  - run. destruct (ParseSessionOptions _ _ _); run; [discriminate |].
    destruct (answer_session _ _ _); run; [discriminate |].
    destruct (session_ (self st)); discriminate.
  - destruct (_ && _ && _ && _ && _); [| discriminate].
    run. destruct (ParseSessionOptions _ _ _); run; [discriminate |].
    destruct (answer_session _ _ _); run; [discriminate |].
    destruct (session_ (self st)); discriminate.
Qed.

Lemma load_steps_defined info (st : St) : defined (load_steps E H info) st.
Proof.
  unfold load_steps. apply defined_bind; [apply create_session_defined |].
  intros [] st1 H1. pose proof (create_session_stores info st) as S.
  rewrite H1 in S. simpl in S. destruct S as [s Hs].
  apply defined_bind.
  { unfold cache_names_and_types. apply defined_bind; [discriminate |].
    intros w st1' [= <- <-]. rewrite Hs. simpl.
    apply defined_bind; [discriminate |]. intros s' st1' [= <- <-].
    apply defined_bind.
    { unfold defined, invoke. now destruct (answer_count _ _ _). }
    intros count st2 H2.
    assert (session_ (self st2) = Some s) as Hs2.
    { unfold invoke in H2. destruct (answer_count _ _ _); injection H2 as _ <-;
        exact Hs. }
    apply defined_bind; [apply cache_inputs_defined; eauto |].
    intros [] st3 H3. pose proof (cache_inputs_outside count 0 st2) as K.
    rewrite H3 in K. unfold unchanged, outside_metadata in K. simpl in K.
    injection K as _ _ K _ _.
    apply defined_bind.
    { unfold defined, invoke. now destruct (answer_count _ _ _). }
    intros count' st4 H4. apply cache_outputs_defined.
    unfold invoke in H4. destruct (answer_count _ _ _); injection H4 as _ <-;
      simpl; rewrite K, Hs2; eauto. }
  intros [] st2 H2. pose proof (cache_names_and_types_outside st1) as K.
  rewrite H2 in K. unfold unchanged, outside_metadata in K. simpl in K.
  injection K as _ _ K _ _.
  unfold cache_preferred_output_locations, defined. run.
  destruct (ParsePreferredOutputLocations _ _ _ _) as [locations [t |]]; run;
    [discriminate |].
  destruct locations; run; [discriminate |].
  rewrite K, Hs. run.
  destruct (answer_binding _ _ _); run; [discriminate |].
  unfold reset_ioBinding_. run. destruct (ioBinding_ (self st2)); discriminate.
Qed.

Lemma LoadModel_defined info (st : St) : defined (LoadModel E H info) st.
Proof.
  unfold LoadModel, defined, bind at 1, this. simpl.
  destruct (initialized_ (self st)); [discriminate |].
  destruct (disposed_ (self st)); [discriminate |].
  destruct (Nat.eqb _ 0); [discriminate |].
  pose proof (load_steps_defined info st) as D. unfold defined in D.
  unfold bind, try_catch.
  destruct (load_steps E H info st) as [[[] | t |] st1]; simpl in *;
    (discriminate || contradiction).
Qed.

(** No member call runs into undefined behaviour on a state a session
    goes through: no null handle is dereferenced and no vector is read
    past its end. *)
Lemma reachable_defined m (st : St) :
  reachable E H st -> defined (call E H m) st.
Proof.
  intros R. pose proof (reachable_consistent st R) as C.
  destruct m as [info | info | info | info | |]; simpl.
  - apply LoadModel_defined.
  - now apply Run_defined.
  - unfold defined, Dispose, reset_ioBinding_, reset_session_. run.
    destruct (negb _); [discriminate |].
    destruct (disposed_ _); [discriminate |]. run.
    destruct (ioBinding_ (self st)); run; destruct (session_ (self st)); discriminate.
  - unfold defined, EndProfiling. run.
    destruct (initialized_ (self st)) eqn:Hi; simpl; [| discriminate].
    destruct (disposed_ (self st)) eqn:Hd; [discriminate |].
    destruct C as (_ & _ & C3 & _). destruct (C3 (conj Hi Hd)) as [[s Hs] _].
    rewrite Hs. run. destruct (answer_name _ _ _); discriminate.
  - unfold defined.
    destruct (initialized_ (self st)) eqn:Hi;
      [| now rewrite GetMetadata_when_not_initialized].
    destruct (disposed_ (self st)) eqn:Hd;
      [now rewrite GetMetadata_when_disposed |].
    now rewrite GetMetadata_loaded.
  - unfold defined.
    destruct (initialized_ (self st)) eqn:Hi;
      [| now rewrite GetMetadata_when_not_initialized].
    destruct (disposed_ (self st)) eqn:Hd;
      [now rewrite GetMetadata_when_disposed |].
    now rewrite GetMetadata_loaded.
Qed.

(** * Further properties of the methods *)

Lemma bind_returns_eq {A B} (m : Action A) (k : A -> Action B) (st : St) r st' :
  bind m k st = (Return r, st') ->
  exists a st1, m st = (Return a, st1) /\ k a st1 = (Return r, st').
Proof.
  unfold bind. destruct (m st) as [[a | t |] st1]; try discriminate.
  intros Hk. now exists a, st1.
Qed.

Lemma try_catch_returns {A} (m : Action A) (st : St) r st' :
  try_catch m st = (Return r, st') -> m st = (Return r, st').
Proof.
  unfold try_catch. destruct (m st) as [[a | t |] st1]; try discriminate.
  now intros [= <- <-].
Qed.

Lemma Run_checked info (st : St) :
  Loaded (self st) -> 2 <= length info ->
  IsObject (arg info 0) = true -> IsObject (arg info 1) = true ->
  (length info <= 2 \/ IsObject (arg info 2) = true) ->
  Run E H info st
  = bind (create_memory_infos E)
      (fun _ => try_catch (run_steps E H info (self st))) st.
Proof.
  intros [Hi Hd] Hlen Hf Hg Ho. unfold Run. unfold bind at 1. unfold this.
  rewrite Hi, Hd, Hf, Hg. simpl.
  destruct (Nat.ltb_spec (length info) 2) as [|_]; [lia |].
  destruct (Nat.ltb_spec 2 (length info)) as [Hlt |]; simpl; [| reflexivity].
  destruct Ho as [Ho | Ho]; [lia |].
  assert (IsNull (arg info 2) = false) as ->
    by (destruct (arg info 2); (discriminate || reflexivity)).
  now rewrite Ho.
Qed.

Lemma Run_loaded info (st : St) :
  Loaded (self st) -> 2 <= length info ->
  IsObject (arg info 0) = true -> IsObject (arg info 1) = true ->
  (length info <= 2 \/ IsObject (arg info 2) = true) ->
  memory_infos_created E st ->
  Run E H info st = try_catch (run_steps E H info (self st)) st.
Proof.
  intros L Hlen Hf Hg Ho C. rewrite Run_checked by assumption.
  now apply with_memory_infos.
Qed.

(** X1: [dispose] on a Loaded session returns [undefined]; it releases the
    I/O binding, if there is one, and then the native session, makes no
    other call, and leaves a Disposed session without handles and with
    the names, types and table it had. *)
Theorem dispose_releases_binding_then_session info (st : St) :
  reachable E H st -> Loaded (self st) ->
  exists s,
    session_ (self st) = Some s
    /\ Dispose info st
       = (Return NUndefined,
          {| self := set_disposed_ true
                       (set_session_ None (set_ioBinding_ None (self st)));
             history := history st
                          ++ match ioBinding_ (self st) with
                             | Some b => [ReleaseIoBinding b]
                             | None => []
                             end
                          ++ [ReleaseSession s] |}).
Proof.
  intros R L. destruct (reachable_consistent st R) as (_ & _ & C3 & _).
  destruct (C3 L) as [[s Hs] _]. destruct L as [Hi Hd].
  exists s. split; [exact Hs |].
  unfold Dispose, reset_ioBinding_, reset_session_. run. rewrite Hi, Hd. simpl.
  destruct (ioBinding_ (self st)); run; rewrite Hs; run;
    rewrite <- ?app_assoc; reflexivity.
Qed.

(** X2: [endProfiling] on a Loaded session makes one call to the engine,
    on the native session, and changes nothing else.  It returns the
    file name as a host text; there is no [try] around the call, so what
    the engine throws leaves the method as it was thrown, not turned
    into a host error as in [run] and [loadModel]. *)
Theorem endProfiling_asks_the_engine_once info (st : St) :
  reachable E H st -> Loaded (self st) ->
  exists s,
    session_ (self st) = Some s
    /\ EndProfiling E info st
       = (match answer_name E (history st) (EndProfilingAllocated s) with
          | inl t => Raise t
          | inr filename => Return (NString filename)
          end,
          {| self := self st;
             history := history st ++ [EndProfilingAllocated s] |}).
Proof.
  intros R L. destruct (reachable_consistent st R) as (_ & _ & C3 & _).
  destruct (C3 L) as [[s Hs] _]. destruct L as [Hi Hd].
  exists s. split; [exact Hs |].
  unfold EndProfiling. run. rewrite Hi, Hd. simpl. rewrite Hs. run.
  now destruct (answer_name _ _ _).
Qed.

(** X3: [loadModel] never ends in an exception that is not a host
    error, in any state and whatever the engine and the helpers throw:
    all it does after the checks is inside the [try], and the [catch]
    clauses turn every other exception into a generic host error.  In
    [run] the two memory descriptors are made before the [try]: once
    they are made [run] ends in host errors only, and what the engine
    throws when it makes one of them leaves [run] as it was thrown, with
    no call made and the session as it was. *)
Theorem try_blocks_turn_exceptions_into_host_errors info (st : St) :
  (forall what, fst (LoadModel E H info st) <> Raise (StdException what))
  /\ (memory_infos_created E st ->
      forall what, fst (Run E H info st) <> Raise (StdException what))
  /\ (Loaded (self st) -> 2 <= length info ->
      IsObject (arg info 0) = true -> IsObject (arg info 1) = true ->
      (length info <= 2 \/ IsObject (arg info 2) = true) ->
      forall t,
        answer_memory_info E (history st) cpuMemoryInfo = inl t
        \/ answer_memory_info E (history st) cpuMemoryInfo = inr tt
           /\ answer_memory_info E (history st) gpuBufferMemoryInfo = inl t ->
        Run E H info st = (Raise t, st)).
Proof.
  split; [| split].
  - intros what. unfold LoadModel, bind at 1, this. simpl.
    destruct (initialized_ _); [discriminate |].
    destruct (disposed_ _); [discriminate |].
    destruct (Nat.eqb _ 0); [discriminate |].
    unfold bind, try_catch.
    destruct (load_steps E H info st) as [[r | [k msg | w] |] st'];
      discriminate.
  - intros C what. unfold Run. unfold bind at 1. unfold this.
    destruct (negb _); [discriminate |].
    destruct (disposed_ _); [discriminate |].
    destruct (Nat.ltb _ 2); [discriminate |].
    destruct (_ || _); [discriminate |].
    destruct (_ && _); [discriminate |].
    rewrite with_memory_infos by exact C. unfold try_catch.
    destruct (run_steps E H info (self st) st) as [[r | [k msg | w] |] st'];
      discriminate.
  - intros L Hlen Hf Hg Ho t Ht. rewrite Run_checked by assumption.
    apply without_memory_infos.
    unfold create_memory_infos, bind, construct.
    destruct Ht as [-> | [-> ->]]; reflexivity.
Qed.

(** X4: on a Loaded session [run] checks its arguments before anything
    else: fewer than two arguments, a feed or a fetch that is not an
    object, and a third argument that is not an object (so also [null]
    and an explicit [undefined]) each fail with a type error, with no
    call to the engine and the session as it was. *)
Theorem run_checks_its_arguments_first info (st : St) :
  Loaded (self st) ->
  (length info < 2 ->
     Run E H info st = (Raise (NapiError TypeError msg_expect_feed_fetch), st))
  /\ (2 <= length info ->
      IsObject (arg info 0) = false \/ IsObject (arg info 1) = false ->
      Run E H info st = (Raise (NapiError TypeError msg_feed_fetch_objects), st))
  /\ (2 < length info ->
      IsObject (arg info 0) = true -> IsObject (arg info 1) = true ->
      IsObject (arg info 2) = false ->
      Run E H info st = (Raise (NapiError TypeError msg_run_options), st)).
Proof.
  intros [Hi Hd]. unfold Run, bind, this. simpl. rewrite Hi, Hd. simpl.
  split; [| split].
  - intros Hlen. now destruct (Nat.ltb_spec (length info) 2) as [_ |]; [| lia].
  - intros Hlen Hobj. destruct (Nat.ltb_spec (length info) 2) as [| _]; [lia |].
    destruct Hobj as [-> | ->]; simpl; [reflexivity |].
    now rewrite Bool.orb_true_r.
  - intros Hlen Hf Hg Ho. destruct (Nat.ltb_spec (length info) 2) as [| _]; [lia |].
    rewrite Hf, Hg, Ho. simpl.
    now destruct (Nat.ltb_spec 2 (length info)) as [_ |]; [| lia].
Qed.

Lemma marshal_feed_fails feed names :
  (exists name, In name names /\ Has feed name = true
     /\ exists t, NapiValueToOrtValue H (Get feed name) cpuMemoryInfo
                    gpuBufferMemoryInfo = inl t)
  -> exists t, marshal_feed H feed names = inl t.
Proof.
  induction names as [| n names IH]; intros (name & Hin & Hh & t & Ht);
    [destruct Hin |].
  simpl. destruct (Has feed n) eqn:Hn.
  - destruct (NapiValueToOrtValue H (Get feed n) _ _) as [t' | v] eqn:Hc; [eauto |].
    destruct Hin as [-> | Hin]; [congruence |].
    destruct IH as [t' ->]; eauto.
  - destruct Hin as [-> | Hin]; [congruence |]. apply IH. eauto.
Qed.

Lemma marshal_fetch_fails fetch names :
  (exists name, In name names /\ Has fetch name = true
     /\ IsNull (Get fetch name) = false
     /\ exists t, NapiValueToOrtValue H (Get fetch name) cpuMemoryInfo
                    gpuBufferMemoryInfo = inl t)
  -> exists t, marshal_fetch H fetch names = inl t.
Proof.
  induction names as [| n names IH]; intros (name & Hin & Hh & Hnull & t & Ht);
    [destruct Hin |].
  simpl. destruct (Has fetch n) eqn:Hn.
  - destruct (if IsNull (Get fetch n) then _ else _) as [t' | v] eqn:Hc; [eauto |].
    destruct Hin as [-> | Hin]; [rewrite Hnull in Hc; congruence |].
    destruct IH as [t' ->]; eauto 6.
  - destruct Hin as [-> | Hin]; [congruence |]. apply IH. eauto 6.
Qed.

Lemma marshal_fetch_values fetch names outs :
  marshal_fetch H fetch names = inr outs ->
  forall name v, In (name, v) outs ->
    if IsNull (Get fetch name) then v = null_OrtValue H
    else NapiValueToOrtValue H (Get fetch name) cpuMemoryInfo gpuBufferMemoryInfo
         = inr v.
Proof.
  revert outs. induction names as [| name names IH]; intros outs; simpl.
  - intros [= <-] n v [].
  - destruct (Has fetch name); [| apply IH].
    destruct (if IsNull (Get fetch name) then _ else _) as [t | v0] eqn:C;
      [discriminate |].
    destruct (marshal_fetch H fetch names); [discriminate |].
    intros [= <-] n v [[= <- <-] | Hin]; [| now apply (IH l)].
    destruct (IsNull (Get fetch name)); [now injection C as <- | exact C].
Qed.

(** X5: a [run] call whose arguments pass the checks fails before any
    call to the engine, with the session as it was, when a declared
    input found in [feed] does not convert, when a declared output found
    in [fetch] with a value other than [null] does not convert, or when
    the run options do not parse.  What it throws is a host error once
    the two memory descriptors are made. *)
Theorem run_stops_before_the_engine_on_a_bad_value info (st : St) :
  Loaded (self st) -> 2 <= length info ->
  IsObject (arg info 0) = true -> IsObject (arg info 1) = true ->
  (length info <= 2 \/ IsObject (arg info 2) = true) ->
  (exists name, In name (inputNames_ (self st)) /\ Has (arg info 0) name = true
     /\ exists t, NapiValueToOrtValue H (Get (arg info 0) name) cpuMemoryInfo
                    gpuBufferMemoryInfo = inl t)
  \/ (exists name, In name (outputNames_ (self st)) /\ Has (arg info 1) name = true
        /\ IsNull (Get (arg info 1) name) = false
        /\ exists t, NapiValueToOrtValue H (Get (arg info 1) name) cpuMemoryInfo
                       gpuBufferMemoryInfo = inl t)
  \/ (2 < length info
      /\ exists t, ParseRunOptions H (arg info 2) (new_RunOptions H) = inl t) ->
  exists t,
    Run E H info st = (Raise t, st)
    /\ (memory_infos_created E st ->
        exists kind message, t = NapiError kind message).
Proof.
  intros L Hlen Hf Hg Ho Bad.
  destruct (create_memory_infos_cases st) as [[C _] | (t & N & C & _)].
  2: { exists t. split; [| contradiction].
       rewrite Run_checked by assumption. now apply without_memory_infos. }
  rewrite Run_loaded by assumption.
  assert (exists t, run_steps E H info (self st) st = (Raise t, st)) as [t Ht].
  { unfold run_steps.
    destruct (marshal_feed H _ _) as [t | ins] eqn:MF; [now exists t |].
    destruct (marshal_fetch H _ _) as [t | outs] eqn:MG; [now exists t |].
    destruct Bad as [B | [B | [Hlt [t Ht]]]].
    - apply marshal_feed_fails in B as [t B]. congruence.
    - apply marshal_fetch_fails in B as [t B]. congruence.
    - exists t. run. destruct (Nat.ltb_spec 2 (length info)) as [_ |]; [| lia].
      run. now rewrite Ht. }
  exists (rethrow t). unfold try_catch. rewrite Ht.
  split; [reflexivity |]. intros _. destruct t as [k msg | w]; simpl; eauto.
Qed.

(** X6: on the direct path a [run] call whose values convert makes,
    once its two memory descriptors are made, one call to the engine,
    [Session::Run] on the native session, with the converted inputs,
    with a null value for every output that [fetch] holds as [null], and
    with the default run options unless a third argument is given; what
    the engine throws in that call comes back as a host error, and the
    session object is not changed. *)
Theorem run_direct_makes_one_engine_call info (st : St) ins outs options :
  reachable E H st -> Loaded (self st) ->
  memory_infos_created E st ->
  preferredOutputLocations_ (self st) = [] ->
  2 <= length info ->
  IsObject (arg info 0) = true -> IsObject (arg info 1) = true ->
  (length info <= 2 \/ IsObject (arg info 2) = true) ->
  marshal_feed H (arg info 0) (inputNames_ (self st)) = inr ins ->
  marshal_fetch H (arg info 1) (outputNames_ (self st)) = inr outs ->
  (if Nat.ltb 2 (length info)
   then ParseRunOptions H (arg info 2) (new_RunOptions H)
   else inr (OrtDefaultRunOptions H)) = inr options ->
  exists s,
    session_ (self st) = Some s
    /\ snd (Run E H info st)
       = {| self := self st;
            history := history st ++ [SessionRun s options ins outs] |}
    /\ (forall name v, In (name, v) outs ->
          IsNull (Get (arg info 1) name) = true -> v = null_OrtValue H)
    /\ (forall t,
          answer_values E (history st) (SessionRun s options ins outs) = inl t ->
          fst (Run E H info st) = Raise (rethrow t)).
Proof.
  intros R L C Hp Hlen Hf Hg Ho MF MG Hopt.
  destruct (reachable_consistent st R) as (_ & _ & C3 & _).
  destruct (C3 L) as [[s Hs] _]. exists s. split; [exact Hs |].
  rewrite Run_loaded by assumption. unfold try_catch.
  assert (run_steps E H info (self st) st
          = run_direct E H (self st) options ins outs st) as ->.
  { unfold run_steps. rewrite MF, MG, Hp. run.
    destruct (Nat.ltb 2 (length info)); run.
    - now rewrite Hopt.
    - now injection Hopt as <-. }
  unfold run_direct. rewrite Hs. run.
  split; [| split].
  - destruct (answer_values _ _ _); run; [reflexivity |].
    now destruct (wrap_outputs _ _ _ _ _ _).
  - intros name v Hin Hnull. pose proof (marshal_fetch_values _ _ _ MG name v Hin) as V.
    now rewrite Hnull in V.
  - intros t Ht. now rewrite Ht.
Qed.

(** X10: only [loadModel] and [dispose] write to the session object:
    [run], [endProfiling] and the two metadata accessors leave it as it
    is, in every state and however they end. *)
Theorem only_loadModel_and_dispose_change_the_session m (st : St) :
  (forall info, m <> loadModel info) -> (forall info, m <> dispose info) ->
  self (snd (call E H m st)) = self st.
Proof.
  intros Hl Hd. destruct m as [info | info | info | info | |]; simpl.
  - now destruct (Hl info).
  - apply (Run_keeps_self info st).
  - now destruct (Hd info).
  - apply (EndProfiling_keeps_self info st).
  - now rewrite GetMetadata_keeps_state.
  - now rewrite GetMetadata_keeps_state.
Qed.

(** ** The result record *)

Lemma set_property_fresh ps name value :
  ~ In name (map fst ps) -> set_property ps name value = ps ++ [(name, value)].
Proof.
  induction ps as [| [k v] ps IH]; simpl; intros Hn; [reflexivity |].
  destruct (String.eqb_spec k name) as [-> | _]; [tauto |].
  rewrite IH by tauto. reflexivity.
Qed.

Lemma wrap_outputs_exact names values todo : forall i result r,
  NoDup (map fst result ++ take todo (drop i names)) ->
  wrap_outputs H names values todo i result = Return r ->
  exists wrapped,
    r = result ++ zip (take todo (drop i names)) wrapped
    /\ length wrapped = todo
    /\ Forall2 (fun v value => OrtValueToNapiValue H v = inr value)
         (take todo (drop i values)) wrapped.
Proof.
  induction todo as [| todo IH]; intros i result r ND; simpl.
  - intros [= <-]. exists []. rewrite take_0. simpl. rewrite app_nil_r.
    repeat split. constructor.
  - destruct (names !! i) as [name |] eqn:Hn; [| discriminate].
    destruct (values !! i) as [v |] eqn:Hv; [| discriminate].
    destruct (OrtValueToNapiValue H v) as [t | value] eqn:Hc; [discriminate |].
    rewrite (drop_S _ _ _ Hn) in ND. rewrite (drop_S _ _ _ Hn), (drop_S _ _ _ Hv).
    simpl in ND |- *.
    assert (~ In name (map fst result)) as Hfresh.
    { apply NoDup_app in ND as (_ & Hd & _). intros Hin.
      apply list_elem_of_In in Hin. apply (Hd name Hin). left. }
    rewrite (set_property_fresh _ _ _ Hfresh). intros Hw.
    destruct (IH (S i) (result ++ [(name, value)]) r)
      as (wrapped & -> & Hl & HF); [| exact Hw |].
    { rewrite map_app. simpl. now rewrite <- app_assoc. }
    exists (value :: wrapped). rewrite <- app_assoc. simpl.
    repeat split; [now rewrite Hl | now constructor].
Qed.

Lemma lift_returns {A} (x : Thrown + A) (st : St) a st' :
  lift x st = (Return a, st') -> x = inr a /\ st' = st.
Proof. destruct x; simpl; [discriminate |]. now intros [= <- <-]. Qed.

Lemma deref_returns {A} (p : option A) (st : St) a st' :
  deref p st = (Return a, st') -> p = Some a /\ st' = st.
Proof. destruct p; simpl; [| discriminate]. now intros [= <- <-]. Qed.

Lemma invoke_returns {A} answer c (st : St) (a : A) st' :
  invoke answer c st = (Return a, st') ->
  answer (history st) c = inr a
  /\ st' = {| self := self st; history := history st ++ [c] |}.
Proof.
  unfold invoke. destruct (answer (history st) c); [discriminate |].
  now intros [= <- <-].
Qed.

Lemma wrapped_returns (names : list string) values todo (st : St) r st' :
  bind (complete (wrap_outputs H names values todo 0 []))
    (fun result => ret (NObject result)) st = (Return r, st') ->
  exists props,
    wrap_outputs H names values todo 0 [] = Return props
    /\ r = NObject props /\ st' = st.
Proof.
  intros Hr. apply bind_returns_eq in Hr as (props & st1 & Hw & Hr).
  unfold complete in Hw. injection Hw as Hw <-. injection Hr as <- <-.
  now exists props.
Qed.

Lemma Run_returns info (st : St) r st' :
  Run E H info st = (Return r, st') ->
  Loaded (self st) /\ run_steps E H info (self st) st = (Return r, st').
Proof.
  unfold Run, bind, this. simpl.
  destruct (initialized_ (self st)) eqn:Hi; simpl; [| discriminate].
  destruct (disposed_ (self st)) eqn:Hd; [discriminate |].
  destruct (Nat.ltb _ 2); [discriminate |].
  destruct (_ || _); [discriminate |].
  destruct (_ && _); [discriminate |].
  destruct (create_memory_infos_cases st) as [[_ ->] | (t & _ & -> & _)];
    [| discriminate].
  intros Hr. apply try_catch_returns in Hr. now repeat split.
Qed.

Lemma Run_returns_created info (st : St) r :
  fst (Run E H info st) = Return r -> memory_infos_created E st.
Proof.
  unfold Run, bind, this. simpl.
  destruct (negb _); [discriminate |].
  destruct (disposed_ _); [discriminate |].
  destruct (Nat.ltb _ 2); [discriminate |].
  destruct (_ || _); [discriminate |].
  destruct (_ && _); [discriminate |].
  destruct (create_memory_infos_cases st) as [[C _] | (t & _ & -> & _)];
    [intros _; exact C | discriminate].
Qed.

Lemma NoDup_first {A} (l : list A) n : NoDup l -> NoDup (take n l).
Proof.
  intros ND. rewrite <- (take_drop n l) in ND. now apply NoDup_app in ND as [? _].
Qed.

(** What the end of both paths gives: the record of the first declared
    names, as many as there are values, each with a converted value. *)
Lemma wrapped_result (w : Wrap) values n (st : St) r st' :
  NoDup (outputNames_ w) ->
  bind (complete (wrap_outputs H (outputNames_ w) values n 0 []))
    (fun result => ret (NObject result)) st = (Return r, st') ->
  exists wrapped,
    r = NObject (zip (take n (outputNames_ w)) wrapped)
    /\ length wrapped = n
    /\ Forall2 (fun v value => OrtValueToNapiValue H v = inr value)
         (take n values) wrapped
    /\ st' = st.
Proof.
  intros ND Hr. apply wrapped_returns in Hr as (props & Hw & -> & ->).
  apply wrap_outputs_exact in Hw as (wrapped & -> & Hl & HF).
  - exists wrapped. rewrite drop_0 in *. simpl. now repeat split.
  - simpl. rewrite drop_0. now apply NoDup_first.
Qed.

Lemma wrap_outputs_sets names values todo : forall i result r,
  wrap_outputs H names values todo i result = Return r ->
  exists wrapped,
    r = set_all result (zip (take todo (drop i names)) wrapped)
    /\ length wrapped = todo
    /\ Forall2 (fun v value => OrtValueToNapiValue H v = inr value)
         (take todo (drop i values)) wrapped.
Proof.
  induction todo as [| todo IH]; intros i result r; simpl.
  - intros [= <-]. exists []. rewrite take_0. repeat split. constructor.
  - destruct (names !! i) as [name |] eqn:Hn; [| discriminate].
    destruct (values !! i) as [v |] eqn:Hv; [| discriminate].
    destruct (OrtValueToNapiValue H v) as [t | value] eqn:Hc; [discriminate |].
    rewrite (drop_S _ _ _ Hn), (drop_S _ _ _ Hv). simpl. intros Hw.
    destruct (IH (S i) (set_property result name value) r Hw)
      as (wrapped & -> & Hl & HF).
    exists (value :: wrapped). simpl.
    repeat split; [now rewrite Hl | now constructor].
Qed.

Lemma set_all_fresh entries : forall result,
  NoDup (map fst result ++ map fst entries) ->
  set_all result entries = result ++ entries.
Proof.
  induction entries as [| [k v] entries IH]; intros result ND; simpl.
  - now rewrite app_nil_r.
  - simpl in ND.
    assert (~ In k (map fst result)) as Hfresh.
    { apply NoDup_app in ND as (_ & Hd & _). intros Hin.
      apply list_elem_of_In in Hin. apply (Hd k Hin). left. }
    unfold set_all in *. simpl. rewrite (set_property_fresh _ _ _ Hfresh), IH.
    + now rewrite <- app_assoc.
    + rewrite map_app. simpl. now rewrite <- app_assoc.
Qed.

(** What the end of both paths gives, whatever the declared names: the
    first declared names are set one after the other, as many as there
    are values, each to a converted value. *)
Lemma wrapped_sets (w : Wrap) values n (st : St) r st' :
  bind (complete (wrap_outputs H (outputNames_ w) values n 0 []))
    (fun result => ret (NObject result)) st = (Return r, st') ->
  exists wrapped,
    r = NObject (set_all [] (zip (take n (outputNames_ w)) wrapped))
    /\ length wrapped = n
    /\ Forall2 (fun v value => OrtValueToNapiValue H v = inr value)
         (take n values) wrapped
    /\ (NoDup (take n (outputNames_ w)) ->
        r = NObject (zip (take n (outputNames_ w)) wrapped))
    /\ st' = st.
Proof.
  intros Hr. apply wrapped_returns in Hr as (props & Hw & -> & ->).
  apply wrap_outputs_sets in Hw as (wrapped & -> & Hl & HF).
  exists wrapped. rewrite drop_0 in *.
  split; [reflexivity |]. split; [exact Hl |]. split; [exact HF |].
  split; [| reflexivity].
  intros ND. rewrite set_all_fresh; [reflexivity |]. simpl.
  rewrite fst_zip; [exact ND |]. rewrite length_take, Hl. lia.
Qed.

(** X7: when the declared output names are distinct, the keys of the
    record that [run] returns are the first declared output names, as
    many as [fetch] asks for, in declared order: which outputs were
    asked for decides how many keys there are, not which. *)
Theorem result_keys_are_the_first_declared_names info (st : St) r :
  NoDup (outputNames_ (self st)) ->
  fst (Run E H info st) = Return r ->
  exists props,
    r = NObject props
    /\ map fst props
       = take (length (List.filter (Has (arg info 1)) (outputNames_ (self st))))
           (outputNames_ (self st)).
Proof.
  intros ND Hr. destruct (Run E H info st) as [c st'] eqn:HR. simpl in Hr.
  subst c. apply Run_returns in HR as [_ HR]. unfold run_steps in HR.
  apply bind_returns_eq in HR as (ins & st1 & _ & HR).
  apply bind_returns_eq in HR as (outs & st2 & MG & HR).
  apply lift_returns in MG as [MG _].
  apply bind_returns_eq in HR as (options & st3 & _ & HR).
  rewrite <- (marshal_fetch_names _ _ _ MG), length_map.
  assert (forall values (sa sb : St),
            bind (complete (wrap_outputs H (outputNames_ (self st)) values
                              (length outs) 0 []))
              (fun result => ret (NObject result)) sa = (Return r, sb) ->
            exists props,
              r = NObject props
              /\ map fst props = take (length outs) (outputNames_ (self st)))
    as Keys.
  { intros values sa sb Hw.
    apply wrapped_result in Hw as (wrapped & -> & Hl & _ & _); [| exact ND].
    eexists. split; [reflexivity |]. apply fst_zip.
    rewrite length_take, Hl. lia. }
  destruct (Nat.eqb _ 0).
  - unfold run_direct in HR.
    apply bind_returns_eq in HR as (s & st4 & _ & HR).
    apply bind_returns_eq in HR as (written & st5 & _ & HR).
    now apply Keys in HR.
  - unfold run_io_binding in HR. destruct (negb _); [discriminate |].
    apply bind_returns_eq in HR as (? & st4 & _ & HR).
    apply bind_returns_eq in HR as (? & st5 & _ & HR).
    apply bind_returns_eq in HR as (s & st6 & _ & HR).
    apply bind_returns_eq in HR as (b & st7 & _ & HR).
    apply bind_returns_eq in HR as (? & st8 & _ & HR).
    apply bind_returns_eq in HR as (outs' & st9 & _ & HR).
    destruct (negb _); [discriminate |].
    now apply Keys in HR.
Qed.

(** X8: on the direct path the record returned is filled by position:
    for k = 0, 1, ... in turn, the k-th declared output name is set to
    the conversion of what the engine wrote for the k-th output asked
    for, so a declared name that comes again takes the later value.
    When the first declared names, as many as outputs were asked for,
    are distinct, the k-th entry of the record is that pair. *)
Theorem run_direct_result_pairs_by_position info (st : St) ins outs options s
    written r :
  Loaded (self st) ->
  preferredOutputLocations_ (self st) = [] ->
  session_ (self st) = Some s ->
  2 <= length info ->
  IsObject (arg info 0) = true -> IsObject (arg info 1) = true ->
  (length info <= 2 \/ IsObject (arg info 2) = true) ->
  marshal_feed H (arg info 0) (inputNames_ (self st)) = inr ins ->
  marshal_fetch H (arg info 1) (outputNames_ (self st)) = inr outs ->
  (if Nat.ltb 2 (length info)
   then ParseRunOptions H (arg info 2) (new_RunOptions H)
   else inr (OrtDefaultRunOptions H)) = inr options ->
  answer_values E (history st) (SessionRun s options ins outs) = inr written ->
  fst (Run E H info st) = Return r ->
  exists wrapped,
    r = NObject (set_all [] (zip (take (length outs) (outputNames_ (self st)))
                               wrapped))
    /\ length wrapped = length outs
    /\ Forall2 (fun v value => OrtValueToNapiValue H v = inr value)
         (written_back (map snd outs) written) wrapped
    /\ map fst outs = List.filter (Has (arg info 1)) (outputNames_ (self st))
    /\ (NoDup (take (length outs) (outputNames_ (self st))) ->
        r = NObject (zip (take (length outs) (outputNames_ (self st))) wrapped)).
Proof.
  intros L Hp Hs Hlen Hf Hg Ho MF MG Hopt Hans Hr.
  pose proof (Run_returns_created _ _ _ Hr) as C.
  rewrite Run_loaded in Hr by assumption. unfold try_catch in Hr.
  assert (run_steps E H info (self st) st
          = run_direct E H (self st) options ins outs st) as Hsteps.
  { unfold run_steps. rewrite MF, MG, Hp. run.
    destruct (Nat.ltb 2 (length info)); run.
    - now rewrite Hopt.
    - now injection Hopt as <-. }
  rewrite Hsteps in Hr. unfold run_direct in Hr. rewrite Hs in Hr.
  unfold bind at 1 2, deref, ret at 1, invoke in Hr. rewrite Hans in Hr.
  match type of Hr with
  | context [bind ?m ?k ?sa] => destruct (bind m k sa) as [c sb] eqn:Hw
  end.
  destruct c as [r' | t |]; simpl in Hr; try discriminate. injection Hr as ->.
  apply wrapped_sets in Hw as (wrapped & -> & Hl & HF & HN & _).
  exists wrapped. split; [reflexivity |]. split; [exact Hl |]. split; [| split].
  - rewrite take_ge in HF; [exact HF |].
    unfold written_back. rewrite length_imap, length_map. lia.
  - now apply marshal_fetch_names.
  - exact HN.
Qed.

(** ** The path through the I/O binding *)

Lemma bind_inputs_exact b ins : forall (st st' : St),
  ioBinding_ (self st) = Some b ->
  bind_inputs E ins st = (Return tt, st') ->
  self st' = self st
  /\ history st'
     = history st ++ map (fun nv => BindInput b (fst nv) (snd nv)) ins.
Proof.
  induction ins as [| [name value] ins IH]; intros st st' Hb; simpl.
  - intros [= <-]. now rewrite app_nil_r.
  - intros Hr. apply bind_returns_eq in Hr as (w & st1 & [= <- <-] & Hr).
    rewrite Hb in Hr. apply bind_returns_eq in Hr as (b' & st1 & [= <- <-] & Hr).
    apply bind_returns_eq in Hr as ([] & st1 & Hi & Hr).
    apply invoke_returns in Hi as [_ ->].
    apply IH in Hr as [Hs Hh]; [| exact Hb].
    split; [exact Hs |]. simpl in Hh. now rewrite Hh, <- app_assoc.
Qed.

Lemma bind_outputs_exact b names : forall i (st st' : St),
  ioBinding_ (self st) = Some b ->
  bind_outputs E names i st = (Return tt, st') ->
  self st' = self st
  /\ history st'
     = history st
       ++ zip_with
            (fun name location =>
               BindOutput b name
                 (if is_gpu_buffer location then gpuBufferMemoryInfo
                  else cpuMemoryInfo))
            names (drop i (preferredOutputLocations_ (self st))).
Proof.
  induction names as [| name names IH]; intros i st st' Hb; simpl.
  - intros [= <-]. now rewrite app_nil_r.
  - intros Hr. apply bind_returns_eq in Hr as (w & st1 & [= <- <-] & Hr).
    apply bind_returns_eq in Hr as (location & st1 & Hl & Hr).
    apply deref_returns in Hl as [Hl ->].
    rewrite Hb in Hr. apply bind_returns_eq in Hr as (b' & st1 & [= <- <-] & Hr).
    apply bind_returns_eq in Hr as ([] & st1 & Hi & Hr).
    apply invoke_returns in Hi as [_ ->].
    apply IH in Hr as [Hs Hh]; [| exact Hb].
    split; [exact Hs |]. simpl in Hh.
    now rewrite Hh, <- app_assoc, (drop_S _ _ _ Hl).
Qed.

(** X9: a [run] call that returns on the path through the I/O binding
    has made these calls, in this order: [BindInput] for every converted
    input, [BindOutput] for every output asked for, the run with the
    binding, and [GetOutputValues].  The k-th output asked for is bound
    to the memory of the k-th entry of the table of preferred locations,
    by its place among the outputs asked for; the table has one entry per
    declared output.  The engine accepted the run, and what it then gave
    for [GetOutputValues] are as many values as outputs were asked for.
    The record returned is filled by position from them: the k-th
    declared output name is set to the conversion of the k-th value. *)
Theorem run_with_binding_call_sequence info (st : St) r st' :
  reachable E H st ->
  preferredOutputLocations_ (self st) <> [] ->
  Run E H info st = (Return r, st') ->
  exists s b ins outs options (outputs' : list OrtValue) wrapped,
    let bound :=
      map (fun nv => BindInput b (fst nv) (snd nv)) ins
      ++ zip_with
           (fun name location =>
              BindOutput b name
                (if is_gpu_buffer location then gpuBufferMemoryInfo
                 else cpuMemoryInfo))
           (map fst outs) (preferredOutputLocations_ (self st)) in
    session_ (self st) = Some s
    /\ ioBinding_ (self st) = Some b
    /\ marshal_feed H (arg info 0) (inputNames_ (self st)) = inr ins
    /\ marshal_fetch H (arg info 1) (outputNames_ (self st)) = inr outs
    /\ (if Nat.ltb 2 (length info)
        then ParseRunOptions H (arg info 2) (new_RunOptions H)
        else inr (OrtDefaultRunOptions H)) = inr options
    /\ length (preferredOutputLocations_ (self st)) = length (outputNames_ (self st))
    /\ answer_status E (history st ++ bound) (SessionRunWithBinding s options b)
       = inr tt
    /\ answer_values E
         (history st ++ bound ++ [SessionRunWithBinding s options b])
         (GetOutputValues b)
       = inr outputs'
    /\ length outputs' = length outs
    /\ Forall2 (fun v value => OrtValueToNapiValue H v = inr value)
         outputs' wrapped
    /\ r = NObject (set_all [] (zip (take (length outs) (outputNames_ (self st)))
                                  wrapped))
    /\ self st' = self st
    /\ history st'
       = history st ++ bound
         ++ [SessionRunWithBinding s options b; GetOutputValues b].
Proof.
  intros R Hp HR. apply Run_returns in HR as [L HR].
  destruct (reachable_consistent st R) as (_ & _ & C3 & _).
  destruct (C3 L) as [[s Hs] Hb]. destruct (proj2 Hb Hp) as [b Hb'].
  unfold run_steps in HR.
  apply bind_returns_eq in HR as (ins & st1 & MF & HR).
  apply lift_returns in MF as [MF ->].
  apply bind_returns_eq in HR as (outs & st1 & MG & HR).
  apply lift_returns in MG as [MG ->].
  apply bind_returns_eq in HR as (runOptions & st1 & Hopt & HR).
  assert (st1 = st
          /\ (if Nat.ltb 2 (length info)
              then ParseRunOptions H (arg info 2) (new_RunOptions H)
              else inr (OrtDefaultRunOptions H))
             = inr (match runOptions with
                    | None => OrtDefaultRunOptions H
                    | Some o => o
                    end)) as [-> Hoptions].
  { destruct (Nat.ltb 2 (length info)); [| now injection Hopt as <- <-].
    apply bind_returns_eq in Hopt as (parsed & st2 & Hparse & Hopt).
    apply lift_returns in Hparse as [Hparse ->]. now injection Hopt as <- <-. }
  destruct (Nat.eqb_spec (length (preferredOutputLocations_ (self st))) 0) as [Hz | _].
  { destruct (preferredOutputLocations_ (self st)); [contradiction | discriminate]. }
  unfold run_io_binding in HR.
  destruct (Nat.eqb_spec (length (preferredOutputLocations_ (self st)))
              (length (outputNames_ (self st)))) as [Hsize | _];
    simpl in HR; [| discriminate].
  apply bind_returns_eq in HR as ([] & st2 & HI & HR).
  apply bind_inputs_exact with (b := b) in HI as [S2 H2]; [| exact Hb'].
  apply bind_returns_eq in HR as ([] & st3 & HO & HR).
  apply bind_outputs_exact with (b := b) in HO as [S3 H3]; [| now rewrite S2].
  rewrite S2, drop_0 in H3. rewrite H2, <- app_assoc in H3.
  rewrite Hs, Hb' in HR.
  apply bind_returns_eq in HR as (s' & st4 & [= <- <-] & HR).
  apply bind_returns_eq in HR as (b' & st4 & [= <- <-] & HR).
  apply bind_returns_eq in HR as ([] & st4 & Hrun & HR).
  apply invoke_returns in Hrun as [Arun ->].
  apply bind_returns_eq in HR as (outputs' & st5 & Hget & HR).
  apply invoke_returns in Hget as [Aget ->]. simpl in Aget.
  destruct (Nat.eqb_spec (length outputs') (length outs)) as [Hcount | _];
    simpl in HR; [| discriminate].
  apply wrapped_sets in HR as (wrapped & -> & _ & HF & _ & ->).
  rewrite take_ge in HF by lia. rewrite H3 in Arun, Aget.
  rewrite <- !app_assoc in Aget.
  exists s, b, ins, outs,
    (match runOptions with None => OrtDefaultRunOptions H | Some o => o end),
    outputs', wrapped.
  simpl. split; [exact Hs |]. split; [exact Hb' |]. split; [exact MF |].
  split; [exact MG |]. split; [exact Hoptions |]. split; [exact Hsize |].
  split; [exact Arun |]. split; [rewrite <- !app_assoc; exact Aget |].
  split; [exact Hcount |].
  split; [exact HF |]. split; [reflexivity |]. split; [congruence |].
  rewrite H3, <- !app_assoc. reflexivity.
Qed.

(** ** The names and types cached by LoadModel *)

Lemma cache_inputs_appends todo : forall i (st : St),
  let out := cache_inputs E todo i st in
  exists ns ts,
    inputNames_ (self (snd out)) = inputNames_ (self st) ++ ns
    /\ inputTypes_ (self (snd out)) = inputTypes_ (self st) ++ ts
    /\ outputNames_ (self (snd out)) = outputNames_ (self st)
    /\ outputTypes_ (self (snd out)) = outputTypes_ (self st)
    /\ (forall s, session_ (self st) = Some s ->
          forall k n, ns !! k = Some n ->
            exists h, answer_name E h (GetInputNameAllocated s (i + k)) = inr n)
    /\ (fst out = Return tt -> length ns = todo /\ length ts = todo).
Proof.
  induction todo as [| todo IH]; intros i st; simpl.
  - exists [], []. rewrite !app_nil_r. repeat split; auto.
    intros s _ k n Hk. discriminate.
  - run. destruct (session_ (self st)) as [s |] eqn:Hs; run.
    2: { exists [], []. rewrite !app_nil_r.
         repeat split; auto; try discriminate. }
    destruct (answer_name E (history st) (GetInputNameAllocated s i))
      as [t | name] eqn:Hname; run.
    { exists [], []. rewrite !app_nil_r.
      repeat split; auto; try discriminate;
        try (intros s' _ k n Hk; discriminate). }
    destruct (answer_type _ _ _) as [t | ty]; run.
    { exists [name], []. rewrite !app_nil_r.
      repeat split; auto; try discriminate.
      intros s' Es k n Hk; injection Es as <-. destruct k; [| discriminate].
      injection Hk as <-. rewrite Nat.add_0_r. eauto. }
    match goal with |- context [cache_inputs E todo (S i) ?s1] =>
      destruct (IH (S i) s1) as (ns & ts & Hn & Ht & Hon & Hot & Hfrom & Hlen) end.
    simpl in Hn, Ht, Hon, Hot, Hfrom.
    exists (name :: ns), (ty :: ts).
    split; [rewrite Hn, <- app_assoc; reflexivity |].
    split; [rewrite Ht, <- app_assoc; reflexivity |].
    split; [exact Hon |]. split; [exact Hot |]. split.
    + intros s' Es k n Hk; injection Es as <-. destruct k as [| k].
      * injection Hk as <-. rewrite Nat.add_0_r. eauto.
      * simpl in Hk. destruct (Hfrom s Hs k n Hk) as [h Hh].
        exists h. now replace (i + S k) with (S i + k) by lia.
    + intros Hret. destruct (Hlen Hret) as [L1 L2]. simpl. now rewrite L1, L2.
Qed.

Lemma cache_outputs_appends todo : forall i (st : St),
  let out := cache_outputs E todo i st in
  exists ns ts,
    outputNames_ (self (snd out)) = outputNames_ (self st) ++ ns
    /\ outputTypes_ (self (snd out)) = outputTypes_ (self st) ++ ts
    /\ inputNames_ (self (snd out)) = inputNames_ (self st)
    /\ inputTypes_ (self (snd out)) = inputTypes_ (self st)
    /\ (forall s, session_ (self st) = Some s ->
          forall k n, ns !! k = Some n ->
            exists h, answer_name E h (GetOutputNameAllocated s (i + k)) = inr n)
    /\ (fst out = Return tt -> length ns = todo /\ length ts = todo).
Proof.
  induction todo as [| todo IH]; intros i st; simpl.
  - exists [], []. rewrite !app_nil_r. repeat split; auto.
    intros s _ k n Hk. discriminate.
  - run. destruct (session_ (self st)) as [s |] eqn:Hs; run.
    2: { exists [], []. rewrite !app_nil_r.
         repeat split; auto; try discriminate. }
    destruct (answer_name E (history st) (GetOutputNameAllocated s i))
      as [t | name] eqn:Hname; run.
    { exists [], []. rewrite !app_nil_r.
      repeat split; auto; try discriminate;
        try (intros s' _ k n Hk; discriminate). }
    destruct (answer_type _ _ _) as [t | ty]; run.
    { exists [name], []. rewrite !app_nil_r.
      repeat split; auto; try discriminate.
      intros s' Es k n Hk; injection Es as <-. destruct k; [| discriminate].
      injection Hk as <-. rewrite Nat.add_0_r. eauto. }
    match goal with |- context [cache_outputs E todo (S i) ?s1] =>
      destruct (IH (S i) s1) as (ns & ts & Hn & Ht & Hon & Hot & Hfrom & Hlen) end.
    simpl in Hn, Ht, Hon, Hot, Hfrom.
    exists (name :: ns), (ty :: ts).
    split; [rewrite Hn, <- app_assoc; reflexivity |].
    split; [rewrite Ht, <- app_assoc; reflexivity |].
    split; [exact Hon |]. split; [exact Hot |]. split.
    + intros s' Es k n Hk; injection Es as <-. destruct k as [| k].
      * injection Hk as <-. rewrite Nat.add_0_r. eauto.
      * simpl in Hk. destruct (Hfrom s Hs k n Hk) as [h Hh].
        exists h. now replace (i + S k) with (S i + k) by lia.
    + intros Hret. destruct (Hlen Hret) as [L1 L2]. simpl. now rewrite L1, L2.
Qed.

Lemma cache_names_and_types_appends (st : St) :
  let out := cache_names_and_types E st in
  exists ns ts ons ots,
    inputNames_ (self (snd out)) = inputNames_ (self st) ++ ns
    /\ inputTypes_ (self (snd out)) = inputTypes_ (self st) ++ ts
    /\ outputNames_ (self (snd out)) = outputNames_ (self st) ++ ons
    /\ outputTypes_ (self (snd out)) = outputTypes_ (self st) ++ ots
    /\ (forall s, session_ (self st) = Some s ->
          (forall k n, ns !! k = Some n ->
             exists h, answer_name E h (GetInputNameAllocated s k) = inr n)
          /\ (forall k n, ons !! k = Some n ->
                exists h, answer_name E h (GetOutputNameAllocated s k) = inr n))
    /\ (fst out = Return tt ->
        exists s ci co hi ho,
          session_ (self st) = Some s
          /\ answer_count E hi (GetInputCount s) = inr ci
          /\ answer_count E ho (GetOutputCount s) = inr co
          /\ length ns = ci /\ length ts = ci
          /\ length ons = co /\ length ots = co).
Proof.
  assert (forall k (n : string), ([] : list string) !! k = Some n -> False) as Nil
    by (intros k n Hk; discriminate).
  unfold cache_names_and_types. run.
  destruct (session_ (self st)) as [s |] eqn:Hs; run.
  2: { exists [], [], [], []. rewrite !app_nil_r.
       repeat split; auto; try discriminate; intros; exfalso; eauto. }
  destruct (answer_count E (history st) (GetInputCount s)) as [t | ci] eqn:Hci; run.
  { exists [], [], [], []. rewrite !app_nil_r.
    repeat split; auto; try discriminate; intros; exfalso; eauto. }
  match goal with |- context [cache_inputs E ci 0 ?s1] =>
    pose proof (cache_inputs_appends ci 0 s1) as A;
    pose proof (cache_inputs_outside ci 0 s1) as O;
    destruct (cache_inputs E ci 0 s1) as [c1 st1] end.
  simpl in A, O. destruct A as (ns & ts & An & At & Aon & Aot & Afrom & Alen).
  unfold unchanged, outside_metadata in O. simpl in O. injection O as _ _ Os _ _.
  destruct c1 as [[] | t |]; simpl.
  2, 3: exists ns, ts, [], []; rewrite !app_nil_r;
        repeat split; auto; try discriminate;
        try (intros; exfalso; eauto; fail);
        intros; simplify_eq; eapply Afrom; eauto.
  destruct (Alen eq_refl) as [Ln Lt].
  destruct (answer_count E (history st1) (GetOutputCount s)) as [t | co] eqn:Hco;
    run.
  { exists ns, ts, [], []. rewrite !app_nil_r.
    repeat split; auto; try discriminate;
      try (intros; exfalso; eauto; fail);
      intros; simplify_eq; eapply Afrom; eauto. }
  match goal with |- context [cache_outputs E co 0 ?s2] =>
    pose proof (cache_outputs_appends co 0 s2) as B;
    destruct (cache_outputs E co 0 s2) as [c2 st2] end.
  simpl in B. destruct B as (ons & ots & Bn & Bt & Bin & Bit & Bfrom & Blen).
  simpl. exists ns, ts, ons, ots.
  split; [congruence |]. split; [congruence |].
  split; [congruence |]. split; [congruence |]. split.
  - intros s' Es. injection Es as <-. split.
    + intros k n Hk. now apply (Afrom s Hs k n).
    + intros k n Hk. apply (Bfrom s); [congruence | exact Hk].
  - intros Hret. destruct (Blen Hret) as [Lon Lot].
    exists s, ci, co, (history st), (history st1). now repeat split.
Qed.

Lemma load_steps_appends info (st : St) :
  let out := load_steps E H info st in
  exists ns ts ons ots,
    inputNames_ (self (snd out)) = inputNames_ (self st) ++ ns
    /\ inputTypes_ (self (snd out)) = inputTypes_ (self st) ++ ts
    /\ outputNames_ (self (snd out)) = outputNames_ (self st) ++ ons
    /\ outputTypes_ (self (snd out)) = outputTypes_ (self st) ++ ots.
Proof.
  unfold load_steps, bind.
  pose proof (create_session_outside info st) as O1.
  destruct (create_session E H info st) as [c1 st1]. simpl in O1.
  unfold unchanged, outside_session in O1. injection O1 as _ _ I1 I2 I3 I4 _ _.
  destruct c1 as [[] | t |]; simpl;
    [| exists [], [], [], []; rewrite !app_nil_r; now repeat split ..].
  pose proof (cache_names_and_types_appends st1) as A.
  destruct (cache_names_and_types E st1) as [c2 st2]. simpl in A.
  destruct A as (ns & ts & ons & ots & A1 & A2 & A3 & A4 & _).
  exists ns, ts, ons, ots.
  destruct c2 as [[] | t |]; simpl; [| repeat split; congruence ..].
  pose proof (cache_preferred_output_locations_outside info st2) as O3.
  destruct (cache_preferred_output_locations E H info st2) as [c3 st3].
  simpl in O3. unfold unchanged, outside_locations in O3.
  injection O3 as _ _ _ F1 F2 F3 F4. simpl. repeat split; congruence.
Qed.

(** X12: the names and types cached in the session are never removed or
    replaced: whatever member is called and however it ends, each of the
    four vectors afterwards starts with what it held before.  [loadModel]
    does not clear them first, so what a failed [loadModel] had cached
    stays in front of what a later one caches. *)
Theorem cached_metadata_is_only_appended_to m (st : St) :
  let st' := snd (call E H m st) in
  inputNames_ (self st) `prefix_of` inputNames_ (self st')
  /\ inputTypes_ (self st) `prefix_of` inputTypes_ (self st')
  /\ outputNames_ (self st) `prefix_of` outputNames_ (self st')
  /\ outputTypes_ (self st) `prefix_of` outputTypes_ (self st').
Proof.
  assert (forall st1 : St, metadata (self st1) = metadata (self st) ->
            inputNames_ (self st) `prefix_of` inputNames_ (self st1)
            /\ inputTypes_ (self st) `prefix_of` inputTypes_ (self st1)
            /\ outputNames_ (self st) `prefix_of` outputNames_ (self st1)
            /\ outputTypes_ (self st) `prefix_of` outputTypes_ (self st1)) as Same.
  { intros st1 [= -> -> -> ->]. now repeat split. }
  destruct m as [info | info | info | info | |]; simpl.
  - destruct (initialized_ (self st)) eqn:Hi.
    { rewrite LoadModel_when_initialized by assumption. now apply Same. }
    destruct (disposed_ (self st)) eqn:Hd.
    { apply Same. unfold LoadModel, bind, this. simpl. now rewrite Hi, Hd. }
    destruct (Nat.eq_dec (length info) 0) as [Hz | Hnz].
    { apply Same. unfold LoadModel, bind, this. simpl. now rewrite Hi, Hd, Hz. }
    rewrite LoadModel_fresh by (try split; assumption).
    destruct (load_steps_appends info st) as (ns & ts & ons & ots & A1 & A2 & A3 & A4).
    destruct (load_steps E H info st) as [[[] | t |] st1]; simpl in *;
      rewrite A1, A2, A3, A4; repeat split; now eexists.
  - apply Same. pose proof (Run_keeps_self info st) as K.
    unfold unchanged, id in K. now rewrite K.
  - destruct (initialized_ (self st)) eqn:Hi;
      [| rewrite Dispose_when_not_initialized by assumption; now apply Same].
    destruct (disposed_ (self st)) eqn:Hd;
      [rewrite Dispose_when_disposed by assumption; now apply Same |].
    apply Same.
    pose proof (Dispose_effect info st (conj Hi Hd))
      as (_ & _ & _ & _ & _ & K1 & K2 & K3 & K4 & _).
    unfold metadata. now rewrite K1, K2, K3, K4.
  - apply Same. pose proof (EndProfiling_keeps_self info st) as K.
    unfold unchanged, id in K. now rewrite K.
  - apply Same. now rewrite GetMetadata_keeps_state.
  - apply Same. now rewrite GetMetadata_keeps_state.
Qed.

(** X11: a [loadModel] that succeeds has appended, to the names and to
    the types it found cached, one entry for each input and for each
    output the engine counted for the native session it created, and
    every appended name is what the engine gave for that index. On a
    session whose vectors were empty the numbers of cached names and
    types are the engine's counts. *)
Theorem loadModel_appends_what_the_engine_lists info (st : St) v st' :
  LoadModel E H info st = (Return v, st') ->
  exists s ci co hi ho ns ts ons ots,
    session_ (self st') = Some s
    /\ answer_count E hi (GetInputCount s) = inr ci
    /\ answer_count E ho (GetOutputCount s) = inr co
    /\ inputNames_ (self st') = inputNames_ (self st) ++ ns
    /\ inputTypes_ (self st') = inputTypes_ (self st) ++ ts
    /\ outputNames_ (self st') = outputNames_ (self st) ++ ons
    /\ outputTypes_ (self st') = outputTypes_ (self st) ++ ots
    /\ length ns = ci /\ length ts = ci /\ length ons = co /\ length ots = co
    /\ (forall k n, ns !! k = Some n ->
          exists h, answer_name E h (GetInputNameAllocated s k) = inr n)
    /\ (forall k n, ons !! k = Some n ->
          exists h, answer_name E h (GetOutputNameAllocated s k) = inr n).
Proof.
  intros HL. apply LoadModel_returns in HL as (_ & _ & st1 & HS & ->).
  unfold load_steps in HS.
  apply bind_returns_eq in HS as ([] & sa & Hc & HS).
  apply bind_returns_eq in HS as ([] & sb & Hn & Hp).
  pose proof (create_session_outside info st) as O1.
  rewrite Hc in O1. unfold unchanged, outside_session in O1. simpl in O1.
  injection O1 as _ _ I1 I2 I3 I4 _ _.
  pose proof (cache_names_and_types_outside sa) as O2.
  rewrite Hn in O2. unfold unchanged, outside_metadata in O2. simpl in O2.
  injection O2 as _ _ Ks _ _.
  pose proof (cache_preferred_output_locations_outside info sb) as O3.
  rewrite Hp in O3. unfold unchanged, outside_locations in O3. simpl in O3.
  injection O3 as _ _ Fs F1 F2 F3 F4.
  destruct (cache_names_and_types_appends sa)
    as (ns & ts & ons & ots & A1 & A2 & A3 & A4 & Afrom & Alen).
  rewrite Hn in A1, A2, A3, A4, Alen. simpl in A1, A2, A3, A4, Alen.
  destruct (Alen eq_refl) as (s & ci & co & hi & ho & Hs & Hci & Hco & L1 & L2 & L3 & L4).
  destruct (Afrom s Hs) as [Fin Fout].
  exists s, ci, co, hi, ho, ns, ts, ons, ots. simpl.
  repeat split; try assumption; congruence.
Qed.

End Properties.

(** * Concrete runs *)

Lemma sample_calls_reachable ms st :
  reachable Sample.engine Sample.helpers st ->
  reachable Sample.engine Sample.helpers (Sample.calls ms st).
Proof.
  revert st. induction ms as [| m ms IH]; intros st R; simpl; [exact R |].
  apply IH. now constructor.
Qed.

Lemma sample_start_reachable : reachable Sample.engine Sample.helpers Sample.start.
Proof. constructor. Qed.

Lemma loaded_reachable : reachable Sample.engine Sample.helpers Sample.loaded.
Proof.
  replace Sample.loaded with (Sample.calls [Sample.load_path] Sample.start)
    by (vm_compute; reflexivity).
  apply sample_calls_reachable, sample_start_reachable.
Qed.

Lemma loaded_gpu_reachable : reachable Sample.engine Sample.helpers Sample.loaded_gpu.
Proof.
  replace Sample.loaded_gpu with (Sample.calls [Sample.load_gpu] Sample.start)
    by (vm_compute; reflexivity).
  apply sample_calls_reachable, sample_start_reachable.
Qed.

Lemma disposed_reachable : reachable Sample.engine Sample.helpers Sample.disposed.
Proof.
  replace Sample.disposed with (Sample.calls [Sample.load_path; dispose []] Sample.start)
    by (vm_compute; reflexivity).
  apply sample_calls_reachable, sample_start_reachable.
Qed.

Lemma disposed_gpu_reachable : reachable Sample.engine Sample.helpers Sample.disposed_gpu.
Proof.
  replace Sample.disposed_gpu with (Sample.calls [Sample.load_gpu; dispose []] Sample.start)
    by (vm_compute; reflexivity).
  apply sample_calls_reachable, sample_start_reachable.
Qed.



(** C1: on the direct path the result record takes its keys from the
    first declared output names, not from the names asked for.  The
    model declares the outputs [a] and [b]; [run] is called with a fetch
    record that asks for [b] alone.  The engine is asked for [b] and
    computes its value, and the record returned holds that value under
    [a] and nothing under [b]. *)
Theorem partial_fetch_result_under_wrong_name :
  let out := Run Sample.engine Sample.helpers [Sample.feed_x; Sample.fetch_b] Sample.loaded in
  preferredOutputLocations_ (self Sample.loaded) = []
  /\ outputNames_ (self Sample.loaded) = ["a"; "b"]
  /\ history (snd out)
     = history Sample.loaded ++ [SessionRun 1 (NObject []) [("x", "1.5")] [("b", "")]]
  /\ answer_values Sample.engine (history Sample.loaded)
       (SessionRun 1 (NObject []) [("x", "1.5")] [("b", "")])
     = inr ["b(1.5)"]
  /\ fst out = Return (NObject [("a", NString "b(1.5)")])
  /\ forall r, fst out = Return r -> Has r "b" = false /\ Get r "a" = NString "b(1.5)".
Proof.
  intros out. subst out.
  split; [reflexivity |]. split; [reflexivity |].
  split; [vm_compute; reflexivity |]. split; [vm_compute; reflexivity |].
  assert (fst (Run Sample.engine Sample.helpers [Sample.feed_x; Sample.fetch_b] Sample.loaded)
          = Return (NObject [("a", NString "b(1.5)")])) as Result
    by (vm_compute; reflexivity).
  split; [exact Result |].
  intros r Hr. rewrite Result in Hr. injection Hr as <-. split; reflexivity.
Qed.

Lemma only_loadModel_before_load_witness :
  initialized_ (self Sample.start) = false
  /\ call Sample.engine Sample.helpers (dispose []) Sample.start
     = (Raise (NapiError GenericError "Session is not initialized."), Sample.start)
  /\ call Sample.engine Sample.helpers Sample.load_path Sample.start
     = (Return NUndefined, Sample.loaded).
Proof.
  split; [reflexivity |].
  destruct (only_loadModel_before_load Sample.engine Sample.helpers Sample.start)
    as [Others Load]; [reflexivity |].
  split; [apply (Others (dispose [])); discriminate |].
  simpl. rewrite Load by (reflexivity || discriminate).
  vm_compute. reflexivity.
Defined.

Lemma disposed_loadModel_says_already_loaded_witness :
  Disposed (self Sample.disposed)
  /\ LoadModel Sample.engine Sample.helpers [NString "model.onnx"; NObject []] Sample.disposed
     = (Raise (NapiError GenericError
                 "Model already loaded. Cannot load model multiple times."),
        Sample.disposed)
  /\ call Sample.engine Sample.helpers (run [Sample.feed_x; Sample.fetch_b]) Sample.disposed
     = (Raise (NapiError GenericError "Session already disposed."), Sample.disposed).
Proof.
  split; [reflexivity |].
  destruct (disposed_loadModel_says_already_loaded Sample.engine Sample.helpers
              Sample.disposed) as [L O].
  - apply disposed_reachable.
  - reflexivity.
  - split; [apply L | apply O; discriminate].
Defined.

Lemma second_loadModel_rejected_witness :
  Loaded (self Sample.loaded)
  /\ LoadModel Sample.engine Sample.helpers [NString "other.onnx"; NObject []] Sample.loaded
     = (Raise (NapiError GenericError msg_already_loaded), Sample.loaded).
Proof.
  destruct (second_loadModel_rejected Sample.engine Sample.helpers
              [NString "model.onnx"; NObject []] Sample.start NUndefined Sample.loaded)
    as [L R]; [vm_compute; reflexivity |].
  split; [exact L |]. apply (R [NString "other.onnx"; NObject []]).
Defined.

(** C7 as stated fails after [dispose]: the session was loaded with
    preferred output locations, [dispose] released the binding, and the
    table still holds the two locations. *)
Lemma dispose_leaves_table_without_binding :
  reachable Sample.engine Sample.helpers Sample.disposed_gpu
  /\ ioBinding_ (self Sample.disposed_gpu) = None
  /\ preferredOutputLocations_ (self Sample.disposed_gpu)
     = [DATA_LOCATION_GPU_BUFFER; DATA_LOCATION_GPU_BUFFER]
  /\ ~ (is_Some (ioBinding_ (self Sample.disposed_gpu))
        <-> preferredOutputLocations_ (self Sample.disposed_gpu) <> []).
Proof.
  split; [apply disposed_gpu_reachable |].
  split; [reflexivity |]. split; [reflexivity |].
  intros [_ B]. destruct B as [b Hb]; [discriminate | discriminate].
Qed.

Lemma binding_matches_table_while_loaded_witness :
  Loaded (self Sample.loaded_gpu)
  /\ (is_Some (ioBinding_ (self Sample.loaded_gpu))
      <-> preferredOutputLocations_ (self Sample.loaded_gpu) <> [])
  /\ ioBinding_ (self (snd (Dispose [] Sample.loaded_gpu))) = None.
Proof.
  destruct (binding_matches_table_while_loaded Sample.engine Sample.helpers
              Sample.loaded_gpu) as (L & _ & _ & _ & D).
  - apply loaded_gpu_reachable.
  - assert (Loaded (self Sample.loaded_gpu)) as HL by (split; reflexivity).
    split; [exact HL |]. split; [exact (L HL) | apply (D [] HL)].
Defined.

(** C3 as stated fails when a step after the creation of the native
    session fails: here the preferred output locations do not parse,
    [loadModel] throws the type error, the session is still Fresh, and
    [session_] holds the native session. *)
Lemma failed_load_keeps_native_session :
  call Sample.engine Sample.helpers Sample.load_bogus Sample.start
  = (Raise Sample.invalid_location, Sample.load_failed)
  /\ Fresh (self Sample.load_failed)
  /\ session_ (self Sample.load_failed) = Some 1
  /\ session_ (self Sample.load_failed) <> None.
Proof.
  split; [vm_compute; reflexivity |]. split; [split; reflexivity |].
  split; [reflexivity | discriminate].
Qed.

Lemma failed_loadModel_stays_fresh_witness :
  Fresh (self Sample.start)
  /\ Fresh (self Sample.load_failed)
  /\ ioBinding_ (self Sample.load_failed) = None.
Proof.
  assert (Fresh (self Sample.start)) as F0 by (split; reflexivity).
  destruct (failed_loadModel_stays_fresh Sample.engine Sample.helpers
              [NString "model.onnx";
               NObject [("preferredOutputLocations", NString "bogus")]]
              Sample.start Sample.invalid_location Sample.load_failed F0)
    as (F & B & _); [vm_compute; reflexivity |].
  split; [exact F0 |]. split; [exact F | exact B].
Defined.

Lemma GetMetadata_is_pure_witness :
  Loaded (self Sample.loaded)
  /\ GetMetadata true (snd (GetMetadata true Sample.loaded)) = GetMetadata true Sample.loaded
  /\ fst (GetMetadata false
            (snd (call Sample.engine Sample.helpers
                    (run [Sample.feed_x; Sample.fetch_b]) Sample.loaded)))
     = fst (GetMetadata false Sample.loaded).
Proof.
  assert (Loaded (self Sample.loaded)) as HL by (split; reflexivity).
  split; [exact HL |].
  destruct (GetMetadata_is_pure Sample.engine Sample.helpers true Sample.loaded)
    as (_ & Again & _); [apply loaded_reachable | exact HL |].
  split; [exact Again |].
  destruct (GetMetadata_is_pure Sample.engine Sample.helpers false Sample.loaded)
    as (_ & _ & After); [apply loaded_reachable | exact HL |].
  apply (After (run [Sample.feed_x; Sample.fetch_b])). split; vm_compute; reflexivity.
Defined.

Lemma loadModel_takes_two_argument_lists_witness :
  Fresh (self Sample.start)
  /\ (exists new,
        history (snd (LoadModel Sample.engine Sample.helpers
                        [NString "model.onnx"; NObject []] Sample.start))
        = history Sample.start ++ NewSessionFromPath "model.onnx" (NObject []) :: new)
  /\ (exists message,
        LoadModel Sample.engine Sample.helpers [NNumber 1; NObject []] Sample.start
        = (Raise (NapiError TypeError message), Sample.start)).
Proof.
  assert (Fresh (self Sample.start)) as F by (split; reflexivity).
  split; [exact F |]. split.
  - destruct (loadModel_takes_two_argument_lists Sample.engine Sample.helpers
                [NString "model.onnx"; NObject []] Sample.start F) as [A _].
    apply (A (NObject []) (NewSessionFromPath "model.onnx")).
    now constructor.
  - destruct (loadModel_takes_two_argument_lists Sample.engine Sample.helpers
                [NNumber 1; NObject []] Sample.start F) as [_ N].
    apply N. intros options request A. inversion A.
Defined.



Lemma run_ignores_undeclared_entries_witness :
  Loaded (self Sample.loaded)
  /\ Run Sample.engine Sample.helpers
       [NObject [("z", NNumber 7); ("x", NString "1.5")];
        NObject [("b", NNull); ("c", NNull)]] Sample.loaded
     = Run Sample.engine Sample.helpers [Sample.feed_x; Sample.fetch_b] Sample.loaded.
Proof.
  assert (Loaded (self Sample.loaded)) as HL by (split; reflexivity).
  split; [exact HL |].
  destruct (run_ignores_undeclared_entries Sample.engine Sample.helpers
              (NObject [("z", NNumber 7); ("x", NString "1.5")])
              (NObject [("b", NNull); ("c", NNull)]) [] Sample.loaded HL) as [Same _].
  exact Same.
Defined.

(** * ListSupportedBackends *)

(** X13: whatever the build flags, the list of backends starts with
    [cpu]; it holds a backend exactly when the macro of the backend is
    defined, each once and in the order dml, webgpu, cuda, tensorrt,
    coreml, qnn, with no place left [undefined]; every entry is a
    record of a name and a flag [bundled], which is false for [cuda]
    and [tensorrt] alone.  The arguments of the call are not looked
    at. *)
Theorem listSupportedBackends_lists_cpu_then_the_enabled_backends flags info :
  let backends := supported_backends flags in
  let present name bundled := In (createObject name bundled) backends in
  Get (ListSupportedBackends flags info) (index_key 0) = createObject "cpu" true
  /\ Get (ListSupportedBackends flags info) "length"
     = NNumber (Z.of_nat (length backends))
  /\ length backends
     = 1 + length (List.filter id
                     [USE_DML flags; USE_WEBGPU flags; USE_CUDA flags;
                      USE_TENSORRT flags; USE_COREML flags; USE_QNN flags])
  /\ map (fun v => Get v "name") backends
       `sublist_of` map NString
                      ["cpu"; "dml"; "webgpu"; "cuda"; "tensorrt"; "coreml"; "qnn"]
  /\ (forall v, In v backends ->
        exists name bundled,
          v = createObject name bundled
          /\ (bundled = false <-> name = "cuda" \/ name = "tensorrt"))
  /\ (present "dml" true <-> USE_DML flags = true)
  /\ (present "webgpu" true <-> USE_WEBGPU flags = true)
  /\ (present "cuda" false <-> USE_CUDA flags = true)
  /\ (present "tensorrt" false <-> USE_TENSORRT flags = true)
  /\ (present "coreml" true <-> USE_COREML flags = true)
  /\ (present "qnn" true <-> USE_QNN flags = true).
Proof.
  assert (forall name bundled items,
            name <> "cuda" /\ name <> "tensorrt" /\ bundled = true
            \/ (name = "cuda" \/ name = "tensorrt") /\ bundled = false ->
            (forall v, In v items ->
               exists name bundled,
                 v = createObject name bundled
                 /\ (bundled = false <-> name = "cuda" \/ name = "tensorrt")) ->
            forall v, In v (createObject name bundled :: items) ->
              exists name bundled,
                v = createObject name bundled
                /\ (bundled = false <-> name = "cuda" \/ name = "tensorrt")) as Step.
  { intros name bundled items Hn IH v [<- | Hv]; [| now apply IH].
    exists name, bundled. split; [reflexivity |].
    destruct Hn as [(N1 & N2 & ->) | [N ->]]; [| tauto].
    split; [discriminate | tauto]. }
  destruct flags as [[] [] [] [] [] []]; intros backends present;
    subst backends present;
    (split; [vm_compute; reflexivity |]);
    (split; [vm_compute; reflexivity |]);
    (split; [vm_compute; reflexivity |]);
    (split; [vm_compute; repeat constructor |]);
    (split;
     [ cbv [supported_backends Array_Set USE_DML USE_WEBGPU USE_CUDA USE_TENSORRT
            USE_COREML USE_QNN length Nat.ltb Nat.leb app replicate Nat.sub];
       repeat (apply Step; [first [left; repeat split; (discriminate || reflexivity)
                                  | right; split; [(now left) || (now right)
                                                  | reflexivity]] |]);
       intros v []
     |]);
    vm_compute; intuition congruence.
Qed.

(** * The further properties on the sample session *)

Lemma try_blocks_turn_exceptions_into_host_errors_witness :
  Loaded (self Sample.loaded)
  /\ memory_infos_created Sample.engine Sample.loaded
  /\ (forall what,
        fst (Run Sample.engine Sample.helpers [Sample.feed_x; Sample.fetch_b]
               Sample.loaded)
        <> Raise (StdException what))
  /\ Run Sample.engine_without_gpu Sample.helpers [Sample.feed_x; Sample.fetch_b]
       Sample.loaded
     = (Raise (StdException "WebGPU_Buffer memory is not available"),
        Sample.loaded).
Proof.
  assert (Loaded (self Sample.loaded)) as HL by (split; reflexivity).
  assert (memory_infos_created Sample.engine Sample.loaded) as C
    by (split; reflexivity).
  split; [exact HL |]. split; [exact C |]. split.
  - destruct (try_blocks_turn_exceptions_into_host_errors Sample.engine
                Sample.helpers [Sample.feed_x; Sample.fetch_b] Sample.loaded)
      as (_ & Made & _).
    exact (Made C).
  - destruct (try_blocks_turn_exceptions_into_host_errors Sample.engine_without_gpu
                Sample.helpers [Sample.feed_x; Sample.fetch_b] Sample.loaded)
      as (_ & _ & Escapes).
    apply Escapes; [exact HL | simpl; lia | reflexivity | reflexivity
                   | left; simpl; lia | right; split; reflexivity].
Defined.

Lemma sample_output_names_distinct : NoDup (outputNames_ (self Sample.loaded)).
Proof.
  apply (bool_decide_unpack _). vm_compute. exact I.
Qed.

Lemma dispose_releases_binding_then_session_witness :
  Loaded (self Sample.loaded_gpu)
  /\ exists s,
       session_ (self Sample.loaded_gpu) = Some s
       /\ Dispose [] Sample.loaded_gpu
          = (Return NUndefined,
             {| self := set_disposed_ true
                          (set_session_ None
                             (set_ioBinding_ None (self Sample.loaded_gpu)));
                history := history Sample.loaded_gpu
                             ++ [ReleaseIoBinding 7] ++ [ReleaseSession s] |}).
Proof.
  assert (Loaded (self Sample.loaded_gpu)) as HL by (split; reflexivity).
  split; [exact HL |].
  exact (dispose_releases_binding_then_session Sample.engine Sample.helpers []
           Sample.loaded_gpu loaded_gpu_reachable HL).
Defined.

Lemma endProfiling_asks_the_engine_once_witness :
  Loaded (self Sample.loaded)
  /\ exists s,
       session_ (self Sample.loaded) = Some s
       /\ EndProfiling Sample.engine [] Sample.loaded
          = (Return (NString "profile.json"),
             {| self := self Sample.loaded;
                history := history Sample.loaded ++ [EndProfilingAllocated s] |}).
Proof.
  assert (Loaded (self Sample.loaded)) as HL by (split; reflexivity).
  split; [exact HL |].
  exact (endProfiling_asks_the_engine_once Sample.engine Sample.helpers []
           Sample.loaded loaded_reachable HL).
Defined.

Lemma run_checks_its_arguments_first_witness :
  Loaded (self Sample.loaded)
  /\ Run Sample.engine Sample.helpers [Sample.feed_x] Sample.loaded
     = (Raise (NapiError TypeError msg_expect_feed_fetch), Sample.loaded)
  /\ Run Sample.engine Sample.helpers [Sample.feed_x; NNull] Sample.loaded
     = (Raise (NapiError TypeError msg_feed_fetch_objects), Sample.loaded)
  /\ Run Sample.engine Sample.helpers [Sample.feed_x; Sample.fetch_b; NNull]
       Sample.loaded
     = (Raise (NapiError TypeError msg_run_options), Sample.loaded).
Proof.
  assert (Loaded (self Sample.loaded)) as HL by (split; reflexivity).
  split; [exact HL |]. split; [| split].
  - destruct (run_checks_its_arguments_first Sample.engine Sample.helpers
                [Sample.feed_x] Sample.loaded HL) as (Few & _).
    apply Few. simpl. lia.
  - destruct (run_checks_its_arguments_first Sample.engine Sample.helpers
                [Sample.feed_x; NNull] Sample.loaded HL) as (_ & Objects & _).
    apply Objects; [simpl; lia | right; reflexivity].
  - destruct (run_checks_its_arguments_first Sample.engine Sample.helpers
                [Sample.feed_x; Sample.fetch_b; NNull] Sample.loaded HL)
      as (_ & _ & Options).
    apply Options; [simpl; lia | reflexivity ..].
Defined.

Lemma run_stops_before_the_engine_on_a_bad_value_witness :
  Loaded (self Sample.loaded)
  /\ exists kind message,
       Run Sample.engine Sample.helpers [Sample.feed_bad; Sample.fetch_b] Sample.loaded
       = (Raise (NapiError kind message), Sample.loaded).
Proof.
  assert (Loaded (self Sample.loaded)) as HL by (split; reflexivity).
  split; [exact HL |].
  destruct (run_stops_before_the_engine_on_a_bad_value Sample.engine Sample.helpers
              [Sample.feed_bad; Sample.fetch_b] Sample.loaded HL)
    as (t & HR & Host).
  - simpl. lia.
  - reflexivity.
  - reflexivity.
  - left. simpl. lia.
  - left. exists "x". split; [left; reflexivity |]. split; [reflexivity |].
    eexists. reflexivity.
  - destruct Host as (kind & message & ->); [split; reflexivity |].
    exists kind, message. exact HR.
Defined.

Lemma run_direct_makes_one_engine_call_witness :
  Loaded (self Sample.loaded)
  /\ exists s,
       session_ (self Sample.loaded) = Some s
       /\ history (snd (Run Sample.engine Sample.helpers
                          [Sample.feed_x; Sample.fetch_b] Sample.loaded))
          = history Sample.loaded
            ++ [SessionRun s (NObject []) [("x", "1.5")] [("b", "")]].
Proof.
  assert (Loaded (self Sample.loaded)) as HL by (split; reflexivity).
  split; [exact HL |].
  destruct (run_direct_makes_one_engine_call Sample.engine Sample.helpers
              [Sample.feed_x; Sample.fetch_b] Sample.loaded
              [("x", "1.5")] [("b", "")] (NObject []))
    as (s & Hs & After & _).
  - apply loaded_reachable.
  - exact HL.
  - split; reflexivity.
  - reflexivity.
  - simpl. lia.
  - reflexivity.
  - reflexivity.
  - left. simpl. lia.
  - vm_compute. reflexivity.
  - vm_compute. reflexivity.
  - vm_compute. reflexivity.
  - exists s. split; [exact Hs |]. now rewrite After.
Defined.

Lemma only_loadModel_and_dispose_change_the_session_witness :
  self (snd (call Sample.engine Sample.helpers
               (run [Sample.feed_x; Sample.fetch_b]) Sample.loaded))
  = self Sample.loaded.
Proof.
  apply (only_loadModel_and_dispose_change_the_session Sample.engine Sample.helpers
           (run [Sample.feed_x; Sample.fetch_b]) Sample.loaded);
    intros info; discriminate.
Defined.

Lemma result_keys_are_the_first_declared_names_witness :
  NoDup (outputNames_ (self Sample.loaded))
  /\ exists props,
       NObject [("a", NString "b(1.5)")] = NObject props
       /\ map fst props = ["a"].
Proof.
  pose proof sample_output_names_distinct as ND.
  split; [exact ND |].
  apply (result_keys_are_the_first_declared_names Sample.engine Sample.helpers
           [Sample.feed_x; Sample.fetch_b] Sample.loaded
           (NObject [("a", NString "b(1.5)")]) ND).
  vm_compute. reflexivity.
Defined.

Lemma run_direct_result_pairs_by_position_witness :
  Loaded (self Sample.loaded_twice)
  /\ outputNames_ (self Sample.loaded_twice) = ["a"; "b"; "a"; "b"]
  /\ exists wrapped,
       NObject [("a", NString "a(1.5)"); ("b", NString "b(1.5)")]
       = NObject (set_all [] (zip ["a"; "b"; "a"; "b"] wrapped))
       /\ length wrapped = 4
       /\ Forall2 (fun v value => OrtValueToNapiValue Sample.helpers v = inr value)
            ["a(1.5)"; "b(1.5)"; "a(1.5)"; "b(1.5)"] wrapped.
Proof.
  assert (Loaded (self Sample.loaded_twice)) as HL by (split; reflexivity).
  split; [exact HL |]. split; [reflexivity |].
  destruct (run_direct_result_pairs_by_position Sample.engine Sample.helpers
              [Sample.feed_x; Sample.fetch_ab] Sample.loaded_twice
              [("x", "1.5"); ("x", "1.5")]
              [("a", ""); ("b", ""); ("a", ""); ("b", "")] (NObject []) 1
              ["a(1.5)"; "b(1.5)"; "a(1.5)"; "b(1.5)"]
              (NObject [("a", NString "a(1.5)"); ("b", NString "b(1.5)")]))
    as (wrapped & Hr & Hl & Hw & _).
  - exact HL.
  - reflexivity.
  - reflexivity.
  - simpl. lia.
  - reflexivity.
  - reflexivity.
  - left. simpl. lia.
  - vm_compute. reflexivity.
  - vm_compute. reflexivity.
  - vm_compute. reflexivity.
  - vm_compute. reflexivity.
  - vm_compute. reflexivity.
  - exists wrapped. split; [exact Hr |]. split; [exact Hl | exact Hw].
Defined.

Lemma run_with_binding_call_sequence_witness :
  preferredOutputLocations_ (self Sample.loaded_gpu) <> []
  /\ exists s b options (outputs' : list string) wrapped,
       session_ (self Sample.loaded_gpu) = Some s
       /\ ioBinding_ (self Sample.loaded_gpu) = Some b
       /\ answer_values Sample.engine
            (history Sample.loaded_gpu
             ++ [BindInput b "x" "1.5"; BindOutput b "a" gpuBufferMemoryInfo;
                 BindOutput b "b" gpuBufferMemoryInfo;
                 SessionRunWithBinding s options b])
            (GetOutputValues b)
          = inr outputs'
       /\ length outputs' = 2
       /\ Forall2 (fun v value => OrtValueToNapiValue Sample.helpers v = inr value)
            outputs' wrapped
       /\ NObject [("a", NString "a(1.5)"); ("b", NString "b(1.5)")]
          = NObject (set_all [] (zip ["a"; "b"] wrapped))
       /\ history (snd (Run Sample.engine Sample.helpers
                          [Sample.feed_x; Sample.fetch_ab] Sample.loaded_gpu))
          = history Sample.loaded_gpu
            ++ [BindInput b "x" "1.5"; BindOutput b "a" gpuBufferMemoryInfo;
                BindOutput b "b" gpuBufferMemoryInfo;
                SessionRunWithBinding s options b; GetOutputValues b].
Proof.
  assert (preferredOutputLocations_ (self Sample.loaded_gpu) <> []) as Hp
    by discriminate.
  split; [exact Hp |].
  destruct (run_with_binding_call_sequence Sample.engine Sample.helpers
              [Sample.feed_x; Sample.fetch_ab] Sample.loaded_gpu
              (NObject [("a", NString "a(1.5)"); ("b", NString "b(1.5)")])
              (snd (Run Sample.engine Sample.helpers
                      [Sample.feed_x; Sample.fetch_ab] Sample.loaded_gpu))
              loaded_gpu_reachable Hp)
    as (s & b & ins & outs & options & outputs' & wrapped & Hs & Hb & MF & MG
        & _ & _ & _ & Aget & Hn & HF & Hr & _ & Hh);
    [vm_compute; reflexivity |].
  vm_compute in MF. injection MF as <-. vm_compute in MG. injection MG as <-.
  exists s, b, options, outputs', wrapped.
  split; [exact Hs |]. split; [exact Hb |]. split; [exact Aget |].
  split; [exact Hn |]. split; [exact HF |]. split; [exact Hr | exact Hh].
Defined.

Lemma loadModel_appends_what_the_engine_lists_witness :
  exists s ci co hi ho ns ts ons ots,
    session_ (self Sample.loaded) = Some s
    /\ answer_count Sample.engine hi (GetInputCount s) = inr ci
    /\ answer_count Sample.engine ho (GetOutputCount s) = inr co
    /\ inputNames_ (self Sample.loaded) = inputNames_ (self Sample.start) ++ ns
    /\ inputTypes_ (self Sample.loaded) = inputTypes_ (self Sample.start) ++ ts
    /\ outputNames_ (self Sample.loaded) = outputNames_ (self Sample.start) ++ ons
    /\ outputTypes_ (self Sample.loaded) = outputTypes_ (self Sample.start) ++ ots
    /\ length ns = ci /\ length ts = ci /\ length ons = co /\ length ots = co
    /\ (forall k n, ns !! k = Some n ->
          exists h, answer_name Sample.engine h (GetInputNameAllocated s k) = inr n)
    /\ (forall k n, ons !! k = Some n ->
          exists h, answer_name Sample.engine h (GetOutputNameAllocated s k) = inr n).
Proof.
  apply (loadModel_appends_what_the_engine_lists Sample.engine Sample.helpers
           [NString "model.onnx"; NObject []] Sample.start NUndefined Sample.loaded).
  vm_compute. reflexivity.
Defined.
